(** * pb/v3: the progress bridge, the registration factory and the pool printer

    A shallow embedding of [interface.go] (RegisterProgressableContext,
    hasTitle, progressWorker, PoolProgressFactory) and of the two [print]
    methods of the Pool ([pool_x.go] and its Windows sibling), with the
    properties the specification states about them.

    Go pointers to bars are locations in a heap; the goroutine's [select]
    loop is a function of the sequence of wake-ups it observes. *)

From Stdlib Require Import ZArith Lia.
From stdpp Require Import base option list gmap strings pretty.

Local Open Scope Z_scope.

(** ** Values *)

(** A Go [error] value, identified with its message. *)
Definition error := string.

(** [context.Canceled.Error()] and [context.DeadlineExceeded.Error()]. *)
Definition Canceled : error := "context canceled".
Definition DeadlineExceeded : error := "context deadline exceeded".

(** A [*ProgressBar]. *)
Definition ptr := nat.

(** ** The progress source

    What a [Progressable] answers at one moment.  [Title = None] is a source
    whose dynamic type does not implement [TitleProgressable]; the
    [FinishedChan] is part of the wake-ups below. *)
Record Progressable := mkProgressable {
  Total : Z;
  Value : Z;
  Title : option string
}.

(** ** The bar *)

(** Modelled from the spec: the [ProgressBar] struct of pb.go is not among
    the sources.  Section 3 of the specification gives its state: total,
    current, an optional error, the finished flag; [Set] stores string data
    under a key, [SetTemplateString] replaces the template ([None] is the
    default one) and [SetWidth] records the width to render at. *)
Record ProgressBar := mkBar {
  bar_total : Z;
  bar_current : Z;
  bar_err : option error;
  bar_finished : bool;
  bar_data : gmap string string;
  bar_template : option string;
  bar_width : Z
}.

Module Bar.

(** Modelled from the spec: [New64(total)] of pb.go, a fresh bar with the
    given total and nothing else set. *)
Definition new64 (t : Z) : ProgressBar :=
  mkBar t 0 None false ∅ None 0.

(** Modelled from the spec: the mutators of section 4.1, each replacing
    one field. *)
Definition set_total (v : Z) (b : ProgressBar) : ProgressBar :=
  mkBar v (bar_current b) (bar_err b) (bar_finished b)
        (bar_data b) (bar_template b) (bar_width b).

Definition set_current (v : Z) (b : ProgressBar) : ProgressBar :=
  mkBar (bar_total b) v (bar_err b) (bar_finished b)
        (bar_data b) (bar_template b) (bar_width b).

Definition set_err (e : error) (b : ProgressBar) : ProgressBar :=
  mkBar (bar_total b) (bar_current b) (Some e) (bar_finished b)
        (bar_data b) (bar_template b) (bar_width b).

Definition finish (b : ProgressBar) : ProgressBar :=
  mkBar (bar_total b) (bar_current b) (bar_err b) true
        (bar_data b) (bar_template b) (bar_width b).

Definition set (k v : string) (b : ProgressBar) : ProgressBar :=
  mkBar (bar_total b) (bar_current b) (bar_err b) (bar_finished b)
        (<[k := v]> (bar_data b)) (bar_template b) (bar_width b).

Definition set_template_string (t : string) (b : ProgressBar) : ProgressBar :=
  mkBar (bar_total b) (bar_current b) (bar_err b) (bar_finished b)
        (bar_data b) (Some t) (bar_width b).

Definition set_width (n : Z) (b : ProgressBar) : ProgressBar :=
  mkBar (bar_total b) (bar_current b) (bar_err b) (bar_finished b)
        (bar_data b) (bar_template b) n.

End Bar.

(** The template [hasTitle] installs; [dquote] is the quote character around
    the key inside it. *)
Definition dquote : string := String (Ascii.ascii_of_nat 34) EmptyString.

Definition titleTemplate : string :=
  "{{string . " +:+ dquote +:+ "title" +:+ dquote +:+
  "}} {{counters . }} {{bar . }} {{percent . }} {{speed . }}".

(** ** The world a bridge runs in *)

(** Calls that the code under study makes, in order: a ghost record that
    lets statements count them. *)
Inductive call :=
| CallNew64 (bar : ptr) (t : Z)
| CallAssertTitleProgressable
| CallTitle
| CallSet (bar : ptr) (k v : string)
| CallSetTemplateString (bar : ptr) (t : string)
| CallSetTotal (bar : ptr) (v : Z)
| CallSetCurrent (bar : ptr) (v : Z)
| CallSetErr (bar : ptr) (e : error)
| CallFinish (bar : ptr)
| CallRemoveFunc (bar : ptr)
| CallTickerStop.

(** A [context.Context]: [Background] is never cancelled (its [Done] channel
    is nil, a case [select] never takes). *)
Inductive Ctx := Background | Cancellable.

Section Bridge.

(** Whatever the removal callback's closure captured; for the factory,
    its Pool and its WaitGroup. *)
Context {E : Type}.

(** The removal callback, a Go func of one bar pointer: it acts on what
    its closure captured. *)
Definition RemoveFunc : Type := ptr → E → E.

(** A started [go progressWorker(ctx, pr, bar, removeFunc)]; the source
    [pr] speaks through the wake-ups. *)
Record goroutine := mkGoroutine {
  g_ctx : Ctx;
  g_bar : ptr;
  g_removeFunc : RemoveFunc
}.

Record World := mkWorld {
  heap : gmap ptr ProgressBar;
  next : ptr;
  env : E;
  goroutines : list goroutine;
  calls : list call
}.

Definition cmd : Type := World → World.

Definition andThen (c1 c2 : cmd) : cmd := λ w, c2 (c1 w).
Local Infix ">>>" := andThen (at level 61, left associativity).

Definition log (c : call) : cmd := λ w,
  mkWorld (heap w) (next w) (env w) (goroutines w) (calls w ++ [c]).

Definition update (bar : ptr) (f : ProgressBar → ProgressBar) : cmd := λ w,
  mkWorld (alter f bar (heap w)) (next w) (env w) (goroutines w) (calls w).

Definition on_env (f : E → E) : cmd := λ w,
  mkWorld (heap w) (next w) (f (env w)) (goroutines w) (calls w).

Definition go (g : goroutine) : cmd := λ w,
  mkWorld (heap w) (next w) (env w) (goroutines w ++ [g]) (calls w).

(** *** Methods of [*ProgressBar]

    Each records its call and applies the mutator of [Bar] to the bar the
    pointer designates. *)

Definition New64 (t : Z) (w : World) : ptr * World :=
  let bar := next w in
  (bar, log (CallNew64 bar t)
          (mkWorld (<[bar := Bar.new64 t]> (heap w)) (S bar) (env w)
                   (goroutines w) (calls w))).

Definition SetTotal (bar : ptr) (v : Z) : cmd :=
  log (CallSetTotal bar v) >>> update bar (Bar.set_total v).
Definition SetCurrent (bar : ptr) (v : Z) : cmd :=
  log (CallSetCurrent bar v) >>> update bar (Bar.set_current v).
Definition SetErr (bar : ptr) (e : error) : cmd :=
  log (CallSetErr bar e) >>> update bar (Bar.set_err e).
Definition Finish (bar : ptr) : cmd :=
  log (CallFinish bar) >>> update bar Bar.finish.
(** [bar.Set(key, value)] ([Set] alone is a sort of the logic). *)
Definition BarSet (bar : ptr) (k v : string) : cmd :=
  log (CallSet bar k v) >>> update bar (Bar.set k v).
Definition SetTemplateString (bar : ptr) (t : string) : cmd :=
  log (CallSetTemplateString bar t) >>> update bar (Bar.set_template_string t).

(** *** hasTitle *)

Definition hasTitle (pr : option Progressable) (bar : option ptr) : cmd :=
  match pr, bar with
  | Some pr, Some bar =>
      log CallAssertTitleProgressable >>>
      match Title pr with
      | Some title =>
          log CallTitle >>>
          if decide (title = EmptyString) then id
          else BarSet bar "title" title >>> SetTemplateString bar titleTemplate
      | None => id
      end
  | _, _ => id
  end.

(** *** progressWorker *)

(** One return of the worker's [select]: the case taken and what the
    source answers at that moment. *)
Inductive select_case :=
| CtxDone (cause : error)   (* <-ctx.Done(), with cause = ctx.Err() *)
| TickerC                   (* <-ticker.C *)
| FcRecv (ok : bool).       (* _, ok := <-fc *)

Record wakeup := mkWakeup {
  fired : select_case;
  pr_now : Progressable
}.

Inductive status := Blocked | Returned.

Definition call_removeFunc (removeFunc : RemoveFunc) (bar : ptr) : cmd :=
  log (CallRemoveFunc bar) >>> on_env (removeFunc bar).

(** The three [defer]s, run last-registered first. *)
Definition deferred (bar : ptr) (removeFunc : RemoveFunc) : cmd :=
  Finish bar >>> call_removeFunc removeFunc bar >>> log CallTickerStop.

Definition sync (pr : Progressable) (bar : ptr) : cmd :=
  SetTotal bar (Total pr) >>> SetCurrent bar (Value pr).

(** The [for { select { ... } }] loop over the wake-ups it gets; with none
    left the goroutine is parked in [select].  The argument [pr] of the Go
    function is the [pr_now] of each wake-up: the same source, read at that
    moment.  Once the worker has returned, the wake-ups left are nobody's. *)
Fixpoint progressWorker (ctx : Ctx) (bar : ptr) (removeFunc : RemoveFunc)
    (sched : list wakeup) (w : World) : status * World :=
  match sched with
  | [] => (Blocked, w)
  | wk :: rest =>
      let pr := pr_now wk in
      match fired wk with
      | CtxDone cause =>
          match ctx with
          | Background => progressWorker ctx bar removeFunc rest w
          | Cancellable =>
              (Returned, (SetErr bar cause >>> deferred bar removeFunc) w)
          end
      | TickerC =>
          progressWorker ctx bar removeFunc rest (sync pr bar w)
      | FcRecv ok =>
          if negb ok
          then (Returned, (sync pr bar >>> deferred bar removeFunc) w)
          else progressWorker ctx bar removeFunc rest w
      end
  end.

(** *** RegisterProgressableContext *)

Definition RegisterProgressableContext (ctx : option Ctx)
    (pr : option Progressable) (removeFunc : option RemoveFunc) (w : World)
    : (error + ptr) * World :=
  let ctx := match ctx with None => Background | Some c => c end in
  match pr with
  | None => (inl "RegisterProgressable: pr is nil", w)
  | Some p =>
      match removeFunc with
      | None => (inl "RegisterProgressable: removeFunc is nil", w)
      | Some rf =>
          let '(bar, w1) := New64 (Total p) w in
          let w2 := hasTitle pr (Some bar) w1 in
          (inr bar, go (mkGoroutine ctx bar rf) w2)
      end
  end.

Definition RegisterProgressable := RegisterProgressableContext (Some Background).

(** Running a started goroutine on the wake-ups it observes. *)
Definition run (g : goroutine) (sched : list wakeup) (w : World)
    : status * World :=
  progressWorker (g_ctx g) (g_bar g) (g_removeFunc g) sched w.

End Bridge.

Infix ">>>" := andThen (at level 61, left associativity).

Arguments World : clear implicits.
Arguments goroutine : clear implicits.
Arguments RemoveFunc : clear implicits.

(** ** The Pool and the factory *)

(** An [io.Writer]: what it has received, and the error its [Write] answers
    with, if it is failing. *)
Record Writer := mkWriter {
  written : string;
  failing : option error
}.

Definition Fprint (wr : Writer) (s : string) : Writer * option error :=
  match failing wr with
  | None => (mkWriter (written wr +:+ s) None, None)
  | Some e => (wr, Some e)
  end.

(** The fields of [Pool] that [print] and the factory use. *)
Record Pool := mkPool {
  bars : list ptr;
  lastBarsCount : Z;
  Output : option Writer
}.

Module PoolOps.

(** Modelled from the spec: [Pool.Add] of pool.go is not among the sources;
    section 4.3 has it append the bar to the end of the display order. *)
Definition Add (bar : ptr) (p : Pool) : Pool :=
  mkPool (bars p ++ [bar]) (lastBarsCount p) (Output p).

(** Modelled from the spec: [Pool.Remove] of pool.go is not among the
    sources; section 4.3 has it delete the bar by identity, doing nothing
    when the bar is absent. *)
Definition Remove (bar : ptr) (p : Pool) : Pool :=
  mkPool (filter (λ q, q ≠ bar) (bars p)) (lastBarsCount p) (Output p).

End PoolOps.

(** A [sync.WaitGroup]: its counter, and whether the counter ever went
    negative (where [Add] panics). *)
Record WaitGroup := mkWaitGroup {
  counter : Z;
  panicked : bool
}.

Module Wg.

Definition Add (delta : Z) (g : WaitGroup) : WaitGroup :=
  let c := counter g + delta in
  mkWaitGroup c (panicked g || (c <? 0)).

Definition Done (g : WaitGroup) : WaitGroup := Add (-1) g.

End Wg.

(** What a [PoolProgressFactory] points to. *)
Record PoolProgressFactory := mkFactory {
  FPool : Pool;
  FWg : WaitGroup
}.

Definition NewPoolProgressFactory (pool : Pool) : PoolProgressFactory :=
  mkFactory pool (mkWaitGroup 0 false).

Definition onPool (f : Pool → Pool) (fa : PoolProgressFactory)
    : PoolProgressFactory :=
  mkFactory (f (FPool fa)) (FWg fa).

Definition onWg (f : WaitGroup → WaitGroup) (fa : PoolProgressFactory)
    : PoolProgressFactory :=
  mkFactory (FPool fa) (f (FWg fa)).

(** The closure [RegisterContext] builds. *)
Definition factoryRemoveFunc : RemoveFunc PoolProgressFactory :=
  λ pb fa, onWg Wg.Done (onPool (PoolOps.Remove pb) fa).

Definition RegisterContext (ctx : option Ctx) (p : option Progressable)
    (w : World PoolProgressFactory) : option error * World PoolProgressFactory :=
  match p with
  | None => (Some "Register: progressable is nil", w)
  | Some _ =>
      let ctx := match ctx with None => Background | Some c => c end in
      let w := on_env (onWg (Wg.Add 1)) w in
      let removeFunc := factoryRemoveFunc in
      match RegisterProgressableContext (Some ctx) p (Some removeFunc) w with
      | (inl err, w) => (Some err, on_env (onWg Wg.Done) w)
      | (inr bar, w) => (None, on_env (onPool (PoolOps.Add bar)) w)
      end
  end.

Definition Register := RegisterContext (Some Background).

(** ** print *)

Definition CR : string := String (Ascii.ascii_of_nat 13) EmptyString.
Definition LF : string := String (Ascii.ascii_of_nat 10) EmptyString.
Definition ESC : string := String (Ascii.ascii_of_nat 27) EmptyString.

(** [strings.Repeat(s, n)]. *)
Definition Repeat (s : string) (n : Z) : string :=
  Nat.iter (Z.to_nat n) (λ acc, s +:+ acc) EmptyString.

(** Conversion to [int16], as Go truncates. *)
Definition int16 (z : Z) : Z := (z + 2 ^ 15) mod 2 ^ 16 - 2 ^ 15.

(** A console [Coord]. *)
Record Coord := mkCoord {
  X : Z;
  Y : Z
}.

(** What the terminal driver (package termutil, injected) answers during one
    frame: [TerminalSize] and [TerminalWidth] with their errors, and the
    errors of [GetCursorPos] and [SetCursorPos]. *)
Record Termutil := mkTermutil {
  size_rows : Z;
  size_cols : Z;
  size_err : option error;
  width_cols : Z;
  width_err : option error;
  getpos_err : option error;
  setpos_err : option error
}.

(** What a frame reads and writes: the bars, the pool, standard error and
    the console cursor. *)
Record Screen := mkScreen {
  s_heap : gmap ptr ProgressBar;
  s_pool : Pool;
  s_stderr : Writer;
  s_cursor : Coord
}.

Global Instance ProgressBar_inhabited : Inhabited ProgressBar :=
  populate (Bar.new64 0).

Section Print.

(** [bar.String()] and [CellCount] (pb.go, util.go) and the constant
    [defaultBarWidth] are not among the sources: the rendering of a bar from
    its state, and the count of printable cells of a string. *)
Variable BarString : ProgressBar → string.
Variable CellCount : string → Z.
Variable defaultBarWidth : Z.

(** [bar.IsFinished()]; a pointer in the pool always has its bar. *)
Definition IsFinished (h : gmap ptr ProgressBar) (bar : ptr) : bool :=
  bar_finished (h !!! bar).

(** The text of one bar, padded to [cols] cells. *)
Definition pad (cols : Z) (result : string) : string :=
  let r := cols - CellCount result in
  if 0 <? r then result +:+ Repeat " " r else result.

(** The body of the [for _, bar := range bars] of the Unix print. *)
Definition draw (cols : Z) (st : bool * string * gmap ptr ProgressBar)
    (bar : ptr) : bool * string * gmap ptr ProgressBar :=
  let '(isFinished, out, h) := st in
  let isFinished := if negb (IsFinished h bar) then false else isFinished in
  let h := alter (Bar.set_width cols) bar h in
  let result := pad cols (BarString (h !!! bar)) in
  (isFinished, out +:+ CR +:+ result +:+ LF, h).

(** The same body in the Windows print: no [SetWidth]. *)
Definition draw_win (cols : Z) (st : bool * string * gmap ptr ProgressBar)
    (bar : ptr) : bool * string * gmap ptr ProgressBar :=
  let '(isFinished, out, h) := st in
  let isFinished := if negb (IsFinished h bar) then false else isFinished in
  let result := pad cols (BarString (h !!! bar)) in
  (isFinished, out +:+ CR +:+ result +:+ LF, h).

(** The tail of both prints: write [out] to the sink, report a failure on
    standard error. *)
Definition emit (p : Pool) (stderr : Writer) (out : string)
    : option Writer * Writer :=
  let '(output, stderr, printErr) :=
    match Output p with
    | Some wr => let '(wr, e) := Fprint wr out in (Some wr, stderr, e)
    | None => let '(stderr, e) := Fprint stderr out in (None, stderr, e)
    end in
  match printErr with
  | Some e => (output, fst (Fprint stderr ("pool print error: " +:+ e +:+ LF)))
  | None => (output, stderr)
  end.

(** The bars the Unix print keeps: [bars[len(bars)-rows:]] when they
    overflow a known height. *)
Definition visible (rows : Z) (bars : list ptr) : list ptr :=
  if (0 <? rows) && (rows <? Z.of_nat (length bars))
  then drop (Z.to_nat (Z.of_nat (length bars) - rows)) bars
  else bars.

(** [func (p *Pool) print(first bool) bool] of pool_x.go, up to the write:
    the result, the composed [out], the bars after the loop and the slice
    [bars] the loop went over. *)
Definition compose (t : Termutil) (first : bool) (s : Screen)
    : bool * string * gmap ptr ProgressBar * list ptr :=
  let p := s_pool s in
  let out :=
    if negb first then ESC +:+ "[" +:+ pretty (lastBarsCount p) +:+ "A"
    else EmptyString in
  let isFinished := true in
  let bs := bars p in
  let '(rows, cols, err) := (size_rows t, size_cols t, size_err t) in
  let cols := if err is Some _ then defaultBarWidth else cols in
  let bs := visible rows bs in
  let '(isFinished, out, h) :=
    foldl (draw cols) (isFinished, out, s_heap s) bs in
  (isFinished, out, h, bs).

(** The whole method: the write of [out], [p.lastBarsCount = len(bars)] and
    the result. *)
Definition print (t : Termutil) (first : bool) (s : Screen) : bool * Screen :=
  let p := s_pool s in
  let '(isFinished, out, h, bs) := compose t first s in
  let '(output, stderr) := emit p (s_stderr s) out in
  (isFinished,
   mkScreen h (mkPool (bars p) (Z.of_nat (length bs)) output)
            stderr (s_cursor s)).

(** The cursor repositioning at the head of the Windows print. *)
Definition reposition (t : Termutil) (p : Pool) (stderr : Writer)
    (cursor : Coord) : Writer * Coord :=
  match getpos_err t with
  | Some err =>
      (fst (Fprint stderr ("cursor position error: " +:+ err +:+ LF)), cursor)
  | None =>
      let y := int16 (Y cursor - int16 (lastBarsCount p)) in
      let y := if y <? 0 then 0 else y in
      let coords := mkCoord 0 y in
      match setpos_err t with
      | Some err =>
          (fst (Fprint stderr ("cursor set error: " +:+ err +:+ LF)), cursor)
      | None => (stderr, coords)
      end
  end.

(** [func (p *Pool) print(first bool) bool] of the Windows build, up to the
    write: the loop goes over all of [p.bars]. *)
Definition compose_win (t : Termutil) (first : bool) (s : Screen)
    : bool * string * gmap ptr ProgressBar * list ptr * Writer * Coord :=
  let p := s_pool s in
  let out := EmptyString in
  let '(stderr, cursor) :=
    if negb first then reposition t p (s_stderr s) (s_cursor s)
    else (s_stderr s, s_cursor s) in
  let '(cols, err) := (width_cols t, width_err t) in
  let cols := if err is Some _ then defaultBarWidth else cols in
  let isFinished := true in
  let '(isFinished, out, h) :=
    foldl (draw_win cols) (isFinished, out, s_heap s) (bars p) in
  (isFinished, out, h, bars p, stderr, cursor).

Definition print_win (t : Termutil) (first : bool) (s : Screen)
    : bool * Screen :=
  let p := s_pool s in
  let '(isFinished, out, h, bs, stderr, cursor) := compose_win t first s in
  let '(output, stderr) := emit p stderr out in
  (isFinished,
   mkScreen h (mkPool (bars p) (Z.of_nat (length bs)) output)
            stderr cursor).

End Print.

(** ** Notions the statements use *)

(** The wake-ups that end the worker: the completion signal (a receive from
    the closed [fc]) and, under a cancellable context, cancellation. *)
Definition terminal (ctx : Ctx) (wk : wakeup) : bool :=
  match fired wk with
  | CtxDone _ => if ctx is Cancellable then true else false
  | TickerC => false
  | FcRecv ok => negb ok
  end.

Definition tick (pr : Progressable) : wakeup := mkWakeup TickerC pr.
Definition completion (pr : Progressable) : wakeup := mkWakeup (FcRecv false) pr.
Definition cancellation (cause : error) (pr : Progressable) : wakeup :=
  mkWakeup (CtxDone cause) pr.

(** What one non-terminal wake-up does: the calls it makes on the bar, and
    the bar afterwards. *)
Definition tick_calls (bar : ptr) (wk : wakeup) : list call :=
  match fired wk with
  | TickerC => [CallSetTotal bar (Total (pr_now wk));
                CallSetCurrent bar (Value (pr_now wk))]
  | _ => []
  end.

Definition ticked (b : ProgressBar) (wk : wakeup) : ProgressBar :=
  match fired wk with
  | TickerC => Bar.set_current (Value (pr_now wk))
                 (Bar.set_total (Total (pr_now wk)) b)
  | _ => b
  end.

Definition is_removeFunc (c : call) : bool :=
  match c with CallRemoveFunc _ => true | _ => false end.

Definition is_sync (c : call) : bool :=
  match c with CallSetTotal _ _ | CallSetCurrent _ _ => true | _ => false end.

Definition is_title (c : call) : bool :=
  match c with
  | CallAssertTitleProgressable | CallTitle
  | CallSet _ _ _ | CallSetTemplateString _ _ => true
  | _ => false
  end.

(** How many calls of a trace satisfy a test. *)
Definition count (f : call → bool) (t : list call) : nat :=
  length (filter (λ c, f c = true) t).

Definition emptyWorld {E : Type} (e : E) : World E := mkWorld ∅ 0%nat e [] [].

(** What registration does with the title of a source: the bar it leaves
    and the calls it makes for it. *)
Definition titled (p : Progressable) (b : ProgressBar) : ProgressBar :=
  match Title p with
  | Some title =>
      if decide (title = EmptyString) then b
      else Bar.set_template_string titleTemplate (Bar.set "title" title b)
  | None => b
  end.

Definition title_calls (bar : ptr) (p : Progressable) : list call :=
  CallAssertTitleProgressable ::
  match Title p with
  | Some title =>
      CallTitle ::
      if decide (title = EmptyString) then []
      else [CallSet bar "title" title; CallSetTemplateString bar titleTemplate]
  | None => []
  end.

(** The context a registration runs under: [context.Background()] for nil. *)
Definition ctx_or_background (ctx : option Ctx) : Ctx :=
  match ctx with None => Background | Some c => c end.

(** The text of one bar in a frame of the Unix print, once its width is
    set, and the text of a sequence of bars. *)
Definition line (BarString : ProgressBar → string) (CellCount : string → Z)
    (cols : Z) (h : gmap ptr ProgressBar) (bar : ptr) : string :=
  CR +:+ pad CellCount cols
           (BarString (alter (Bar.set_width cols) bar h !!! bar)) +:+ LF.

Definition lines (BarString : ProgressBar → string) (CellCount : string → Z)
    (cols : Z) (h : gmap ptr ProgressBar) (bs : list ptr) : string :=
  foldr (λ bar acc, line BarString CellCount cols h bar +:+ acc) EmptyString bs.

(** The bars of a frame with their widths set. *)
Definition widened (cols : Z) (h : gmap ptr ProgressBar) (bs : list ptr)
    : gmap ptr ProgressBar :=
  foldl (λ h bar, alter (Bar.set_width cols) bar h) h bs.

(** The cursor-up sequence a frame other than the first starts with. *)
Definition cursor_up (first : bool) (n : Z) : string :=
  if first then EmptyString else ESC +:+ "[" +:+ pretty n +:+ "A".

(** ** Scenarios

    The sources and callbacks of interface_test.go, used to run the
    statements below on concrete inputs. *)

(** [func(pb) {}], a callback that captures nothing. *)
Definition noRemove : RemoveFunc unit := λ _ e, e.

(** [NewMockProgressable(total)] with its [current] at [v]. *)
Definition mock (total v : Z) : Progressable := mkProgressable total v None.

(** [NewMockProgressableWithTitle(total, title)]. *)
Definition mockWithTitle (total : Z) (title : string) : Progressable :=
  mkProgressable total 0 (Some title).

(** A bar registered for a source of total 150 under a cancellable
    context; it is bar 0. *)
Definition registered150 : World unit :=
  (RegisterProgressableContext (Some Cancellable) (Some (mock 150 0))
     (Some noRemove) (emptyWorld tt)).2.

(** Values 0, 40, 90 seen by three ticks, then completion at 150. *)
Definition sched150 : list wakeup :=
  [tick (mock 150 0); tick (mock 150 40); tick (mock 150 90);
   completion (mock 150 150)].

(** Two ticks, cancellation, and a source that keeps reporting. *)
Definition schedCancel : list wakeup :=
  [tick (mock 150 0); tick (mock 150 40);
   cancellation Canceled (mock 150 40);
   tick (mock 150 90); tick (mock 200 150); completion (mock 200 200)].

(** A factory on an empty pool, nothing registered. *)
Definition factory0 : World PoolProgressFactory :=
  emptyWorld (NewPoolProgressFactory (mkPool [] 0 None)).

(** The completion signal observed twice. *)
Definition schedTwice : list wakeup :=
  [tick (mock 100 50); completion (mock 100 100); completion (mock 100 100)].

(** A plain rendering, current over total, counted in characters. *)
Definition counters (b : ProgressBar) : string :=
  pretty (bar_current b) +:+ " / " +:+ pretty (bar_total b).

Definition cells (s : string) : Z := Z.of_nat (String.length s).

(** A terminal of the given size that answers every query. *)
Definition terminal_of (rows cols : Z) : Termutil :=
  mkTermutil rows cols None cols None None None.

(** Two bars in display order: bar 0 at 10 of 100 and running, bar 1 at 100
    of 100 and finished; both at width 12 already. *)
Definition screen2 : Screen :=
  mkScreen
    (<[0%nat := mkBar 100 10 None false ∅ None 12]>
       (<[1%nat := mkBar 100 100 None true ∅ None 12]> ∅))
    (mkPool [0%nat; 1%nat] 0 (Some (mkWriter EmptyString None)))
    (mkWriter EmptyString None) (mkCoord 0 0).

(** Three running bars. *)
Definition screen3 : Screen :=
  mkScreen
    (<[0%nat := Bar.new64 100]>
       (<[1%nat := Bar.new64 200]> (<[2%nat := Bar.new64 150]> ∅)))
    (mkPool [0%nat; 1%nat; 2%nat] 0 (Some (mkWriter EmptyString None)))
    (mkWriter EmptyString None) (mkCoord 0 0).

(** ** Further notions *)

(** The wake-ups the worker acts on: a value received on [fc] (ok is true),
    and any [Done] of a background context, make the loop go round with no
    effect. *)
Definition effective (ctx : Ctx) (wk : wakeup) : bool :=
  match fired wk with
  | CtxDone _ => if ctx is Cancellable then true else false
  | TickerC => true
  | FcRecv ok => negb ok
  end.

(** Every allocated bar lies below the allocation pointer. *)
Definition heap_below {E : Type} (w : World E) : Prop :=
  ∀ x, is_Some (heap w !! x) → (x < next w)%nat.

(** The pool of [screen2] with a sink whose writes fail. *)
Definition screenFailing : Screen :=
  mkScreen (s_heap screen2)
    (mkPool [0%nat; 1%nat] 0 (Some (mkWriter EmptyString (Some "disk full"))))
    (mkWriter EmptyString None) (mkCoord 0 0).

(** The pool of [screen2] after a frame of two lines, the cursor on row 5. *)
Definition screenSecond : Screen :=
  mkScreen (s_heap screen2)
    (mkPool [0%nat; 1%nat] 2 (Some (mkWriter EmptyString None)))
    (mkWriter EmptyString None) (mkCoord 7 5).

(** ** The demo source (cmd/progressdemo/main.go) *)

(** Conversion to [int64], as Go's arithmetic wraps. *)
Definition int64 (z : Z) : Z := (z + 2 ^ 63) mod 2 ^ 64 - 2 ^ 63.

Module Demo.

(** [finishedCh] is represented by whether it has been closed. *)
Record MockProgressable := mkMock {
  total : Z;
  value : Z;
  title : string;
  closed : bool
}.

(** [NewMockProgressable(total)]; the [go m.worker()] it starts is [worker]
    below, run on the ticks it gets. *)
Definition NewMockProgressable (t : Z) : MockProgressable :=
  mkMock t 0 EmptyString false.

Definition SetTitle (s : string) (m : MockProgressable) : MockProgressable :=
  mkMock (total m) (value m) s (closed m).

(** What the bridge reads from the source at one moment: [Total()],
    [Value()] and [Title()]. *)
Definition snapshot (m : MockProgressable) : Progressable :=
  mkProgressable (total m) (value m) (Some (title m)).

(** One turn of [for range ticker.C]; [nano] is what
    [time.Now().UnixNano()] answers.  On return the deferred
    [close(m.finishedCh)] runs. *)
Definition tick (nano : Z) (m : MockProgressable) : status * MockProgressable :=
  if total m <=? value m
  then (Returned, mkMock (total m) (value m) (title m) true)
  else
    let v := int64 (value m + int64 (10 + Z.rem nano 20)) in
    let v := if total m <? v then total m else v in
    (Blocked, mkMock (total m) v (title m) (closed m)).

(** [func (m *MockProgressable) worker()] on the ticks it gets. *)
Fixpoint worker (nanos : list Z) (m : MockProgressable)
    : status * MockProgressable :=
  match nanos with
  | [] => (Blocked, m)
  | nano :: rest =>
      match tick nano m with
      | (Returned, m') => (Returned, m')
      | (Blocked, m') => worker rest m'
      end
  end.

End Demo.

(** ** Several registrations at work

    The goroutines of a factory take their wake-ups in any order, between
    registrations; one wake-up of one worker, or one call of
    [RegisterContext], is a step. *)

Inductive event :=
| EvRegister (ctx : option Ctx) (p : option Progressable)
| EvWake (i : nat) (wk : wakeup).

(** The world and, for each goroutine started, whether it is parked or has
    returned. *)
Record System := mkSystem {
  sys_world : World PoolProgressFactory;
  sys_status : list status
}.

Definition sys_step (s : System) (ev : event) : System :=
  match ev with
  | EvRegister ctx p =>
      let '(err, w) := RegisterContext ctx p (sys_world s) in
      mkSystem w (sys_status s ++ (if err is None then [Blocked] else []))
  | EvWake i wk =>
      match goroutines (sys_world s) !! i, sys_status s !! i with
      | Some g, Some Blocked =>
          let '(st, w) := run g [wk] (sys_world s) in
          mkSystem w (<[i := st]> (sys_status s))
      | _, _ => s
      end
  end.

Definition sys_run (s : System) (evs : list event) : System :=
  foldl sys_step s evs.

(** The goroutines that have not returned. *)
Fixpoint live (gs : list (goroutine PoolProgressFactory)) (ss : list status)
    : list (goroutine PoolProgressFactory) :=
  match gs, ss with
  | g :: gs, Blocked :: ss => g :: live gs ss
  | _ :: gs, _ :: ss => live gs ss
  | _, _ => []
  end.

(** [RegisterContext] with a source, in the two parts between which the
    goroutine it starts may already run: up to the [go] statement inside
    [RegisterProgressableContext], and the [f.Pool.Add(bar)] after it. *)
Definition RegisterContext_go (ctx : option Ctx) (p : Progressable)
    (w : World PoolProgressFactory) : (error + ptr) * World PoolProgressFactory :=
  let ctx := match ctx with None => Background | Some c => c end in
  let w := on_env (onWg (Wg.Add 1)) w in
  RegisterProgressableContext (Some ctx) (Some p) (Some factoryRemoveFunc) w.

Definition RegisterContext_add (bar : ptr) (w : World PoolProgressFactory)
    : World PoolProgressFactory :=
  on_env (onPool (PoolOps.Add bar)) w.

(** What the factory keeps true from a world [w0] without goroutines: its
    callbacks are its own, its bars are distinct and newer than those of
    [w0], and the pool and the counter account for the goroutines that have
    not returned. *)
Definition sys_inv (w0 : World PoolProgressFactory) (s : System) : Prop :=
  let w := sys_world s in
  let gs := goroutines w in
  let ss := sys_status s in
  length ss = length gs
  ∧ (next w0 ≤ next w)%nat
  ∧ Forall (λ g, g_removeFunc g = factoryRemoveFunc
                 ∧ (next w0 ≤ g_bar g < next w)%nat) gs
  ∧ NoDup (g_bar <$> gs)
  ∧ bars (FPool (env w)) = bars (FPool (env w0)) ++ (g_bar <$> live gs ss)
  ∧ counter (FWg (env w))
    = counter (FWg (env w0)) + Z.of_nat (length (live gs ss))
  ∧ panicked (FWg (env w)) = false.

(** Three sources of totals 100, 200 and 150 registered; the first and the
    third tick once and complete, the second only ticks. *)
Definition threeSources : list event :=
  [EvRegister None (Some (mock 100 0));
   EvRegister None (Some (mock 200 0));
   EvWake 0%nat (tick (mock 100 50));
   EvRegister None (Some (mock 150 0));
   EvWake 1%nat (tick (mock 200 10));
   EvWake 2%nat (completion (mock 150 150));
   EvWake 0%nat (completion (mock 100 100));
   EvWake 0%nat (completion (mock 100 100))].

(** ** The registration without context

    The revision of interface.go from before contexts, kept in the
    repository: no cancellation case in the [select], no [Finish], no check
    of the callback, and a factory callback that only counts. *)

Module NoContext.

(** How a worker stands: parked in [select], returned, or stopped by a
    panic. *)
Inductive outcome := Parked | Done | Panicked.

(** The two [defer]s, last first: [removeFunc(bar)], then [ticker.Stop()].
    Calling a nil [removeFunc] panics; the deferred [ticker.Stop()] still
    runs. *)
Definition deferred {E : Type} (bar : ptr) (removeFunc : option (RemoveFunc E))
    (w : World E) : outcome * World E :=
  match removeFunc with
  | Some rf => (Done, (call_removeFunc rf bar >>> log CallTickerStop) w)
  | None => (Panicked, log CallTickerStop w)
  end.

(** [progressWorker(pr, bar, removeFunc)]; a [Done] of some context is no
    case of this [select]. *)
Fixpoint progressWorker {E : Type} (bar : ptr)
    (removeFunc : option (RemoveFunc E)) (sched : list wakeup) (w : World E)
    : outcome * World E :=
  match sched with
  | [] => (Parked, w)
  | wk :: rest =>
      let pr := pr_now wk in
      match fired wk with
      | CtxDone _ => progressWorker bar removeFunc rest w
      | TickerC => progressWorker bar removeFunc rest (sync pr bar w)
      | FcRecv ok =>
          if negb ok then deferred bar removeFunc (sync pr bar w)
          else progressWorker bar removeFunc rest w
      end
  end.

(** [RegisterProgressable(pr, removeFunc)]; beside the bar and the error,
    the arguments of the [go progressWorker(...)] it has started. *)
Definition RegisterProgressable {E : Type} (pr : option Progressable)
    (removeFunc : option (RemoveFunc E)) (w : World E)
    : (error + ptr) * option (ptr * option (RemoveFunc E)) * World E :=
  match pr with
  | None => (inl "RegisterProgressable: pr is nil", None, w)
  | Some p =>
      let '(bar, w1) := New64 (Total p) w in
      let w2 := hasTitle pr (Some bar) w1 in
      (inr bar, Some (bar, removeFunc), w2)
  end.

(** The closure [Register] builds: it does not remove the bar. *)
Definition factoryRemoveFunc : RemoveFunc PoolProgressFactory :=
  λ pb fa, onWg Wg.Done fa.

Definition Register (p : option Progressable) (w : World PoolProgressFactory)
    : option error * option (ptr * option (RemoveFunc PoolProgressFactory))
      * World PoolProgressFactory :=
  match p with
  | None => (Some "Register: progressable is nil", None, w)
  | Some _ =>
      let w := on_env (onWg (Wg.Add 1)) w in
      let removeFunc := factoryRemoveFunc in
      match RegisterProgressable p (Some removeFunc) w with
      | (inl err, _, w) => (Some err, None, on_env (onWg Wg.Done) w)
      | (inr bar, started, w) =>
          (None, started, on_env (onPool (PoolOps.Add bar)) w)
      end
  end.

End NoContext.

(** ** The first registration (progressable.go)

    The oldest revision kept in the repository: a bar made by [new], a tick
    every second that also logs, no final synchronisation, and the callback
    deferred after [Finish], hence run before it. *)

Module Legacy.

Inductive outcome := Parked | Done | Panicked.

(** [new(ProgressBar)]: the zero bar, made without [New64]. *)
Definition zeroBar : ProgressBar := mkBar 0 0 None false ∅ None 0.

(** [RegisterProgressable(pr, removeFunc)]: nothing is checked; beside the
    bar, the arguments of the [go progressWorker(...)] it has started. *)
Definition RegisterProgressable {E : Type} (pr : option Progressable)
    (removeFunc : option (RemoveFunc E)) (w : World E)
    : ptr * (option Progressable * ptr * option (RemoveFunc E)) * World E :=
  let pb := next w in
  (pb, (pr, pb, removeFunc),
   mkWorld (<[pb := zeroBar]> (heap w)) (S pb) (env w) (goroutines w)
           (calls w)).

(** The two [defer]s, last first: [removeFunc(pb)], then [pb.Finish()];
    calling a nil [removeFunc] panics and [pb.Finish()] still runs. *)
Definition deferred {E : Type} (pb : ptr) (removeFunc : option (RemoveFunc E))
    (w : World E) : outcome * World E :=
  match removeFunc with
  | Some rf => (Done, (call_removeFunc rf pb >>> Finish pb) w)
  | None => (Panicked, Finish pb w)
  end.

(** The loop of [progressWorker]; beside the world, the pairs that
    [log.Println("Updating bar", pr.Total(), pr.Value())] has logged. *)
Fixpoint loop {E : Type} (pb : ptr) (removeFunc : option (RemoveFunc E))
    (sched : list wakeup) (logged : list (Z * Z)) (w : World E)
    : outcome * list (Z * Z) * World E :=
  match sched with
  | [] => (Parked, logged, w)
  | wk :: rest =>
      let pr := pr_now wk in
      match fired wk with
      | CtxDone _ => loop pb removeFunc rest logged w
      | TickerC =>
          loop pb removeFunc rest (logged ++ [(Total pr, Value pr)])
               (sync pr pb w)
      | FcRecv ok =>
          if negb ok
          then let '(o, w) := deferred pb removeFunc w in (o, logged, w)
          else loop pb removeFunc rest logged w
      end
  end.

(** [progressWorker(pr, pb, removeFunc)]: with a nil [pr] the first
    statement, [pr.FinishedChan()], panics before anything is deferred. *)
Definition progressWorker {E : Type} (pr : option Progressable) (pb : ptr)
    (removeFunc : option (RemoveFunc E)) (sched : list wakeup) (w : World E)
    : outcome * list (Z * Z) * World E :=
  match pr with
  | None => (Panicked, [], w)
  | Some _ => loop pb removeFunc sched [] w
  end.

End Legacy.

(** ** The bridge worker *)

Section WorkerFacts.

Context {E : Type}.
Implicit Types (w : World E) (rf : RemoveFunc E) (sched pre post : list wakeup).

(** A prefix without terminal wake-up leaves the worker parked, having made
    exactly the synchronisation calls of its ticks. *)
Lemma progressWorker_prefix ctx bar rf pre w :
  Forall (λ wk, terminal ctx wk = false) pre →
  progressWorker ctx bar rf pre w
  = (Blocked,
     mkWorld (alter (λ b, foldl ticked b pre) bar (heap w)) (next w) (env w)
             (goroutines w) (calls w ++ flat_map (tick_calls bar) pre)).
Proof.
  intros Hpre. revert w.
  induction Hpre as [|wk pre Hwk _ IH]; intros w.
  - simpl. rewrite app_nil_r.
    rewrite (alter_id (λ b, b)) by reflexivity. by destruct w.
  - destruct wk as [[cause| |ok] pr]; simpl in *.
    + destruct ctx; [|discriminate]. rewrite IH. reflexivity.
    + rewrite IH. unfold sync, SetTotal, SetCurrent, andThen, log, update.
      simpl. rewrite <- !app_assoc, !alter_alter_eq. reflexivity.
    + destruct ok; [|discriminate]. simpl. rewrite IH. reflexivity.
Qed.

Lemma progressWorker_app ctx bar rf pre post w :
  Forall (λ wk, terminal ctx wk = false) pre →
  progressWorker ctx bar rf (pre ++ post) w
  = progressWorker ctx bar rf post (progressWorker ctx bar rf pre w).2.
Proof.
  intros Hpre. revert w.
  induction Hpre as [|wk pre Hwk _ IH]; intros w; [reflexivity|].
  destruct wk as [[cause| |ok] pr]; simpl in *.
  - destruct ctx; [|discriminate]. apply IH.
  - apply IH.
  - destruct ok; [|discriminate]. apply IH.
Qed.

(** Every schedule is either free of terminal wake-ups or has a first one. *)
Lemma first_terminal ctx sched :
  Forall (λ wk, terminal ctx wk = false) sched ∨
  ∃ pre wk post, sched = pre ++ wk :: post ∧
    Forall (λ wk, terminal ctx wk = false) pre ∧ terminal ctx wk = true.
Proof.
  induction sched as [|wk sched IH]; [by left|].
  destruct (terminal ctx wk) eqn:Hwk.
  - right. exists [], wk, sched. by repeat split.
  - destruct IH as [IH|(pre & wk' & post & -> & Hpre & Hwk')].
    + left. by constructor.
    + right. exists (wk :: pre), wk', post. repeat split; [|done].
      by constructor.
Qed.

(** The cancellation branch and the deferred calls after it. *)
Lemma cancel_step bar rf cause w :
  (SetErr bar cause >>> deferred bar rf) w
  = mkWorld (alter (λ b, Bar.finish (Bar.set_err cause b)) bar (heap w))
            (next w) (rf bar (env w)) (goroutines w)
            (calls w ++ [CallSetErr bar cause; CallFinish bar;
                         CallRemoveFunc bar; CallTickerStop]).
Proof.
  unfold deferred, call_removeFunc, SetErr, Finish, andThen, log, update,
    on_env. simpl. rewrite <- !app_assoc, alter_alter_eq. reflexivity.
Qed.

(** The completion branch and the deferred calls after it. *)
Lemma complete_step bar rf pr w :
  (sync pr bar >>> deferred bar rf) w
  = mkWorld (alter (λ b, Bar.finish (Bar.set_current (Value pr)
                                       (Bar.set_total (Total pr) b)))
                   bar (heap w))
            (next w) (rf bar (env w)) (goroutines w)
            (calls w ++ [CallSetTotal bar (Total pr);
                         CallSetCurrent bar (Value pr); CallFinish bar;
                         CallRemoveFunc bar; CallTickerStop]).
Proof.
  unfold deferred, call_removeFunc, sync, SetTotal, SetCurrent, Finish,
    andThen, log, update, on_env. simpl.
  rewrite <- !app_assoc, !alter_alter_eq. reflexivity.
Qed.

(** The worker at the first terminal wake-up of its schedule. *)
Lemma progressWorker_terminal ctx bar rf pre wk post w :
  Forall (λ wk, terminal ctx wk = false) pre →
  terminal ctx wk = true →
  progressWorker ctx bar rf (pre ++ wk :: post) w
  = (Returned,
     match fired wk with
     | CtxDone cause => SetErr bar cause >>> deferred bar rf
     | _ => sync (pr_now wk) bar >>> deferred bar rf
     end (progressWorker ctx bar rf pre w).2).
Proof.
  intros Hpre Hwk. rewrite progressWorker_app by done.
  destruct wk as [[cause| |ok] pr]; simpl in *.
  - by destruct ctx.
  - discriminate.
  - by destruct ok.
Qed.

Lemma tick_calls_sync bar pre :
  Forall (λ c, is_sync c = true) (flat_map (tick_calls bar) pre).
Proof.
  induction pre as [|[[cause| |ok] pr] pre IH]; simpl; [done|done| |done].
  by repeat constructor.
Qed.

Lemma ticked_err b pre : bar_err (foldl ticked b pre) = bar_err b.
Proof.
  revert b. induction pre as [|[[cause| |ok] pr] pre IH]; intros b; simpl;
    [done|by rewrite IH..].
Qed.

Lemma ticked_title b pre :
  bar_data (foldl ticked b pre) = bar_data b ∧
  bar_template (foldl ticked b pre) = bar_template b.
Proof.
  revert b. induction pre as [|[[cause| |ok] pr] pre IH]; intros b; simpl;
    [done|by rewrite !(proj1 (IH _)), !(proj2 (IH _))..].
Qed.

End WorkerFacts.

(** ** Claims about the bridge worker *)

Section WorkerClaims.

Context {E : Type}.
Implicit Types (w : World E) (rf : RemoveFunc E) (sched pre post : list wakeup).

(** C1. When the completion signal fires (the first terminal wake-up is a
    receive from the closed channel), the worker returns after one last
    synchronisation: its calls end with SetTotal and SetCurrent of what the
    source reports at that moment, then Finish, then the removal callback,
    which runs once on what it captured; the bar ends with the source's
    total and value and is finished.  With Total 150 and Value 150 at
    completion the bar ends with current 150, finished. *)
Theorem completion_flushes_then_finishes ctx bar rf pre pr post w b :
  Forall (λ wk, terminal ctx wk = false) pre →
  heap w !! bar = Some b →
  ∃ w' b',
    progressWorker ctx bar rf (pre ++ completion pr :: post) w = (Returned, w')
    ∧ calls w' = calls w ++ flat_map (tick_calls bar) pre ++
        [CallSetTotal bar (Total pr); CallSetCurrent bar (Value pr);
         CallFinish bar; CallRemoveFunc bar; CallTickerStop]
    ∧ env w' = rf bar (env w)
    ∧ heap w' !! bar = Some b'
    ∧ bar_total b' = Total pr
    ∧ bar_current b' = Value pr
    ∧ bar_finished b' = true.
Proof.
  intros Hpre Hb.
  rewrite (progressWorker_terminal ctx bar rf pre (completion pr) post w Hpre)
    by reflexivity.
  rewrite progressWorker_prefix by done. simpl. rewrite complete_step. simpl.
  eexists _, _. split; [reflexivity|]. simpl.
  rewrite <- app_assoc, alter_alter_eq, lookup_alter_eq, Hb. simpl.
  by repeat split.
Qed.

(** C6. When cancellation fires under a cancellable context, the worker
    records the cause in the bar's error, makes no synchronisation call
    after it (its calls end with SetErr, Finish, the removal callback),
    whatever the source reports afterwards: the bar keeps the total and the
    current value it had, and the removal callback is called exactly
    once. *)
Theorem cancellation_freezes_bar bar rf pre cause pr post w b :
  Forall (λ wk, terminal Cancellable wk = false) pre →
  heap w !! bar = Some b →
  ∃ w' b',
    progressWorker Cancellable bar rf (pre ++ cancellation cause pr :: post) w
      = (Returned, w')
    ∧ calls w' = calls w ++ flat_map (tick_calls bar) pre ++
        [CallSetErr bar cause; CallFinish bar; CallRemoveFunc bar;
         CallTickerStop]
    ∧ count is_removeFunc (drop (length (calls w)) (calls w')) = 1%nat
    ∧ env w' = rf bar (env w)
    ∧ heap w' !! bar = Some b'
    ∧ bar_err b' = Some cause
    ∧ bar_total b' = bar_total (foldl ticked b pre)
    ∧ bar_current b' = bar_current (foldl ticked b pre).
Proof.
  intros Hpre Hb.
  rewrite (progressWorker_terminal Cancellable bar rf pre
             (cancellation cause pr) post w Hpre) by reflexivity.
  rewrite progressWorker_prefix by done. simpl. rewrite cancel_step. simpl.
  eexists _, _. split; [reflexivity|]. simpl.
  rewrite <- app_assoc, alter_alter_eq, lookup_alter_eq, Hb. simpl.
  repeat split.
  rewrite drop_app_length. unfold count. rewrite filter_app.
  rewrite length_app.
  assert (filter (λ c, is_removeFunc c = true)
            (flat_map (tick_calls bar) pre) = []) as ->; [|reflexivity].
  clear. induction pre as [|[[c| |ok] p] pre IH]; simpl; done.
Qed.

(** C2, as the code has it.  A worker that returns took exactly one of the
    two terminal branches, at the first terminal wake-up of its schedule,
    and the bar's error tells which.  On the cancellation branch the calls
    made are those of the ticks before it followed by SetErr, Finish, the
    removal callback and nothing else: no synchronisation follows the
    cancellation, the bar keeps the total and the current value the last
    tick gave it, and its error is the cause.  On the completion branch the
    calls are those of the ticks followed by the final SetTotal and
    SetCurrent of what the source reports then, Finish, the removal
    callback; the error stays unset.  On both branches the deferred Finish
    marks the bar finished. *)
Theorem terminal_branches_exclusive ctx bar rf sched w w' b :
  heap w !! bar = Some b →
  bar_err b = None →
  progressWorker ctx bar rf sched w = (Returned, w') →
  ∃ pre wk post b',
    sched = pre ++ wk :: post
    ∧ Forall (λ wk, terminal ctx wk = false) pre
    ∧ heap w' !! bar = Some b'
    ∧ bar_finished b' = true
    ∧ ((∃ cause,
          fired wk = CtxDone cause
          ∧ ctx = Cancellable
          ∧ calls w' = calls w ++ flat_map (tick_calls bar) pre ++
              [CallSetErr bar cause; CallFinish bar; CallRemoveFunc bar;
               CallTickerStop]
          ∧ bar_err b' = Some cause
          ∧ bar_total b' = bar_total (foldl ticked b pre)
          ∧ bar_current b' = bar_current (foldl ticked b pre))
       ∨ (fired wk = FcRecv false
          ∧ calls w' = calls w ++ flat_map (tick_calls bar) pre ++
              [CallSetTotal bar (Total (pr_now wk));
               CallSetCurrent bar (Value (pr_now wk));
               CallFinish bar; CallRemoveFunc bar; CallTickerStop]
          ∧ bar_err b' = None
          ∧ bar_total b' = Total (pr_now wk)
          ∧ bar_current b' = Value (pr_now wk))).
Proof.
  intros Hb Herr Hrun.
  destruct (first_terminal ctx sched) as [Hall|(pre & wk & post & -> & Hpre & Hwk)].
  { rewrite progressWorker_prefix in Hrun by done. discriminate. }
  rewrite (progressWorker_terminal ctx bar rf pre wk post w Hpre Hwk) in Hrun.
  rewrite progressWorker_prefix in Hrun by done. simpl in Hrun.
  exists pre, wk, post.
  destruct wk as [[cause| |ok] pr]; simpl in *.
  - destruct ctx; [discriminate|].
    rewrite cancel_step in Hrun. simpl in Hrun.
    injection Hrun as <-. simpl.
    rewrite alter_alter_eq, lookup_alter_eq, Hb. simpl.
    eexists. split; [reflexivity|]. split; [done|].
    split; [reflexivity|]. split; [reflexivity|].
    left. exists cause. rewrite <- app_assoc. by repeat split.
  - discriminate.
  - destruct ok; [discriminate|].
    rewrite complete_step in Hrun. simpl in Hrun.
    injection Hrun as <-. simpl.
    rewrite alter_alter_eq, lookup_alter_eq, Hb. simpl.
    eexists. split; [reflexivity|]. split; [done|].
    split; [reflexivity|]. split; [reflexivity|].
    right. rewrite <- app_assoc.
    repeat split; simpl; rewrite ?ticked_err; done.
Qed.

End WorkerClaims.

(** The spec's scenario for C1: total 150, values 0, 40, 90, 150, then the
    completion signal. *)
Lemma completion_flushes_then_finishes_witness :
  ∃ w' b',
    progressWorker Cancellable 0%nat noRemove sched150 registered150
      = (Returned, w')
    ∧ heap w' !! 0%nat = Some b'
    ∧ bar_current b' = 150 ∧ bar_finished b' = true.
Proof.
  destruct (completion_flushes_then_finishes Cancellable 0%nat noRemove
              [tick (mock 150 0); tick (mock 150 40); tick (mock 150 90)]
              (mock 150 150) [] registered150 (Bar.new64 150))
    as (w' & b' & Hrun & _ & _ & Hb' & _ & Hcur & Hfin).
  - repeat constructor.
  - reflexivity.
  - exists w', b'. repeat split; assumption.
Defined.

(** Cancellation after two ticks: the bar keeps the current value 40 of the
    last tick although the source goes on to 150 and 200. *)
Lemma cancellation_freezes_bar_witness :
  ∃ w' b',
    progressWorker Cancellable 0%nat noRemove schedCancel registered150
      = (Returned, w')
    ∧ heap w' !! 0%nat = Some b'
    ∧ bar_err b' = Some Canceled
    ∧ bar_total b' = 150 ∧ bar_current b' = 40
    ∧ count is_removeFunc (drop (length (calls registered150)) (calls w'))
      = 1%nat.
Proof.
  destruct (cancellation_freezes_bar 0%nat noRemove
              [tick (mock 150 0); tick (mock 150 40)] Canceled (mock 150 40)
              [tick (mock 150 90); tick (mock 200 150);
               completion (mock 200 200)]
              registered150 (Bar.new64 150))
    as (w' & b' & Hrun & _ & Hcount & _ & Hb' & Herr & Htot & Hcur).
  - repeat constructor.
  - reflexivity.
  - exists w', b'. repeat split; assumption.
Defined.

(** C2 fails as stated: after cancellation the bar carries the cancellation
    error and is marked finished as well. *)
Lemma cancelled_bar_is_finished_too :
  ∃ w' b',
    progressWorker Cancellable 0%nat noRemove
      [cancellation Canceled (mock 150 0)] registered150 = (Returned, w')
    ∧ heap w' !! 0%nat = Some b'
    ∧ bar_finished b' = true
    ∧ bar_err b' = Some Canceled.
Proof.
  eexists _, _. split; [reflexivity|]. vm_compute. repeat split.
Qed.

Lemma terminal_branches_exclusive_witness :
  ∃ b',
    heap (progressWorker Cancellable 0%nat noRemove sched150 registered150).2
      !! 0%nat = Some b'
    ∧ bar_finished b' = true ∧ bar_err b' = None.
Proof.
  destruct (terminal_branches_exclusive Cancellable 0%nat noRemove sched150
              registered150
              (progressWorker Cancellable 0%nat noRemove sched150
                 registered150).2
              (Bar.new64 150))
    as (pre & wk & post & b' & _ & _ & Hb' & Hfin
        & [(cause & _ & _ & _ & Herr & _)|(_ & _ & Herr & _)]).
  - reflexivity.
  - reflexivity.
  - reflexivity.
  - exists b'. exfalso. vm_compute in Hb'. injection Hb' as <-. discriminate.
  - exists b'. repeat split; assumption.
Defined.

(** The calls of the scenario of C1, registration included. *)
Example calls_sched150 :
  calls (progressWorker Cancellable 0%nat noRemove sched150 registered150).2
  = [CallNew64 0%nat 150; CallAssertTitleProgressable;
     CallSetTotal 0%nat 150; CallSetCurrent 0%nat 0;
     CallSetTotal 0%nat 150; CallSetCurrent 0%nat 40;
     CallSetTotal 0%nat 150; CallSetCurrent 0%nat 90;
     CallSetTotal 0%nat 150; CallSetCurrent 0%nat 150;
     CallFinish 0%nat; CallRemoveFunc 0%nat; CallTickerStop].
Proof. reflexivity. Qed.

(** Under [context.Background()] a cancellation never reaches the worker:
    it stays parked. *)
Example background_ignores_cancellation :
  (progressWorker Background 0%nat noRemove
     [cancellation Canceled (mock 150 0)] registered150).1 = Blocked.
Proof. reflexivity. Qed.

(** ** Registration *)

Section RegistrationFacts.

Context {E : Type}.
Implicit Types (w : World E) (rf : RemoveFunc E).

(** A registration with a source and a callback: the bar is new, built from
    the source's total, given its title if any, and one goroutine is
    started. *)
Lemma registration_world ctx p rf w :
  RegisterProgressableContext ctx (Some p) (Some rf) w
  = (inr (next w),
     mkWorld (<[next w := titled p (Bar.new64 (Total p))]> (heap w))
             (S (next w)) (env w)
             (goroutines w ++
                [mkGoroutine (ctx_or_background ctx) (next w) rf])
             (calls w ++ CallNew64 (next w) (Total p)
                      :: title_calls (next w) p)).
Proof.
  unfold RegisterProgressableContext, New64, hasTitle, titled, title_calls.
  simpl. destruct (Title p) as [title|]; simpl.
  - destruct (decide (title = EmptyString)); simpl.
    + unfold andThen, log, go. simpl. by rewrite <- !app_assoc.
    + unfold BarSet, SetTemplateString, andThen, log, update, go. simpl.
      by rewrite <- !app_assoc, alter_alter_eq, alter_insert_eq.
  - unfold andThen, log, go. simpl. by rewrite <- !app_assoc.
Qed.

(** On any schedule the worker calls the removal callback once if it
    returns and not at all while it is parked; it returns exactly when the
    schedule has a terminal wake-up; it never touches title or template. *)
Lemma progressWorker_any ctx bar rf sched w :
  ∃ st w' t,
    progressWorker ctx bar rf sched w = (st, w')
    ∧ calls w' = calls w ++ t
    ∧ count is_removeFunc t = (if st is Returned then 1 else 0)%nat
    ∧ count is_title t = 0%nat
    ∧ env w' = (if st is Returned then rf bar (env w) else env w)
    ∧ (st = Returned ↔ Exists (λ wk, terminal ctx wk = true) sched)
    ∧ (∀ b, heap w !! bar = Some b →
         ∃ b', heap w' !! bar = Some b'
           ∧ bar_data b' = bar_data b ∧ bar_template b' = bar_template b).
Proof.
  assert (∀ pre, count is_removeFunc (flat_map (tick_calls bar) pre) = 0%nat
               ∧ count is_title (flat_map (tick_calls bar) pre) = 0%nat)
    as Hticks.
  { induction pre as [|[[c| |ok] p] pre IH]; simpl; done. }
  destruct (first_terminal ctx sched)
    as [Hall|(pre & wk & post & -> & Hpre & Hwk)].
  - rewrite progressWorker_prefix by done.
    eexists Blocked, _, _. split; [reflexivity|]. simpl.
    split; [reflexivity|]. destruct (Hticks sched) as [-> ->].
    repeat split; try done.
    + intros Hex. apply Exists_exists in Hex as (wk & Hin & Hwk).
      rewrite Forall_forall in Hall. specialize (Hall wk Hin). congruence.
    + intros b Hb. rewrite lookup_alter_eq, Hb. simpl.
      eexists. split; [reflexivity|]. apply ticked_title.
  - rewrite (progressWorker_terminal ctx bar rf pre wk post w Hpre Hwk).
    rewrite progressWorker_prefix by done. simpl.
    assert (Exists (λ wk, terminal ctx wk = true) (pre ++ wk :: post)) as Hex.
    { apply Exists_app. right. by constructor. }
    destruct (Hticks pre) as [Hr Ht]. unfold count in *.
    destruct wk as [[cause| |ok] pr]; simpl in *; [|discriminate|].
    + rewrite cancel_step. simpl.
      eexists Returned, _, _. split; [reflexivity|]. simpl.
      split; [by rewrite <- app_assoc|].
      rewrite !filter_app, !length_app, Hr, Ht. simpl.
      repeat split; try done.
      intros b Hb. rewrite alter_alter_eq, lookup_alter_eq, Hb. simpl.
      eexists. split; [reflexivity|]. apply ticked_title.
    + destruct ok; [discriminate|]. rewrite complete_step. simpl.
      eexists Returned, _, _. split; [reflexivity|]. simpl.
      split; [by rewrite <- app_assoc|].
      rewrite !filter_app, !length_app, Hr, Ht. simpl.
      repeat split; try done.
      intros b Hb. rewrite alter_alter_eq, lookup_alter_eq, Hb. simpl.
      eexists. split; [reflexivity|]. apply ticked_title.
Qed.

End RegistrationFacts.

(** A registration through the factory: the counter goes up, the bar is
    registered with the factory's callback and appended to the pool. *)
Lemma RegisterContext_ok ctx p (w : World PoolProgressFactory) :
  RegisterContext ctx (Some p) w
  = (None,
     mkWorld (<[next w := titled p (Bar.new64 (Total p))]> (heap w))
             (S (next w))
             (onPool (PoolOps.Add (next w)) (onWg (Wg.Add 1) (env w)))
             (goroutines w ++
                [mkGoroutine (ctx_or_background ctx) (next w)
                   factoryRemoveFunc])
             (calls w ++ CallNew64 (next w) (Total p)
                      :: title_calls (next w) p)).
Proof.
  unfold RegisterContext. rewrite registration_world. by destruct ctx.
Qed.

(** ** Claims about registration *)

(** C7. [RegisterProgressableContext] without a source or without a removal
    callback returns an error and leaves the world as it was: no bar, no
    call, no goroutine started.  [RegisterContext] and [Register] without a
    source return an error and leave the world, hence the WaitGroup counter,
    as it was; with a source they return no error and the counter is one
    higher. *)
Theorem registration_rejects_nil :
  (∀ E ctx (rf : option (RemoveFunc E)) (w : World E),
     ∃ e, RegisterProgressableContext ctx None rf w = (inl e, w))
  ∧ (∀ E ctx pr (w : World E),
     ∃ e, RegisterProgressableContext ctx pr None w = (inl e, w))
  ∧ (∀ ctx w, ∃ e, RegisterContext ctx None w = (Some e, w))
  ∧ (∀ w, ∃ e, Register None w = (Some e, w))
  ∧ (∀ ctx p w, ∃ w',
       RegisterContext ctx (Some p) w = (None, w')
       ∧ counter (FWg (env w')) = counter (FWg (env w)) + 1)
  ∧ (∀ p w, ∃ w',
       Register (Some p) w = (None, w')
       ∧ counter (FWg (env w')) = counter (FWg (env w)) + 1).
Proof.
  repeat split.
  - intros. eexists. reflexivity.
  - intros E ctx [p|] w; eexists; reflexivity.
  - intros. eexists. reflexivity.
  - intros. eexists. reflexivity.
  - intros ctx p w. rewrite RegisterContext_ok.
    eexists. split; reflexivity.
  - intros p w. unfold Register. rewrite RegisterContext_ok.
    eexists. split; reflexivity.
Qed.

(** C10. The bar a successful registration returns already has the source's
    total: it was built by [New64] from it, before any wake-up of the worker
    and without any synchronisation call. *)
Theorem registered_bar_has_total :
  ∀ E ctx p (rf : RemoveFunc E) (w : World E),
    ∃ bar w' b,
      RegisterProgressableContext ctx (Some p) (Some rf) w = (inr bar, w')
      ∧ heap w' !! bar = Some b
      ∧ bar_total b = Total p
      ∧ CallNew64 bar (Total p) ∈ drop (length (calls w)) (calls w')
      ∧ count is_sync (drop (length (calls w)) (calls w')) = 0%nat.
Proof.
  intros. rewrite registration_world. eexists _, _, _.
  split; [reflexivity|]. simpl. rewrite lookup_insert_eq, drop_app_length.
  split; [reflexivity|]. split; [|split; [by left|]].
  - unfold titled. destruct (Title p) as [t|]; [|done].
    by destruct (decide (t = EmptyString)).
  - unfold title_calls. destruct (Title p) as [t|]; [|done].
    by destruct (decide (t = EmptyString)).
Qed.

(** C9. Registration asks once whether the source has a title.  A source
    with a non-empty title gets it read once and written once into the bar
    under the key title, with the title template installed; a source with
    an empty title, or without the capability, leaves the bar as [New64]
    made it.  The worker started for the bar, on any schedule, makes no
    title call and leaves the bar's data and template as registration left
    them. *)
Theorem title_probed_once :
  ∀ E ctx p (rf : RemoveFunc E) (w : World E),
    ∃ bar w' b g,
      RegisterProgressableContext ctx (Some p) (Some rf) w = (inr bar, w')
      ∧ heap w' !! bar = Some b
      ∧ goroutines w' = goroutines w ++ [g]
      ∧ g_bar g = bar
      ∧ (∀ title, Title p = Some title → title ≠ EmptyString →
           calls w' = calls w ++
             [CallNew64 bar (Total p); CallAssertTitleProgressable; CallTitle;
              CallSet bar "title" title;
              CallSetTemplateString bar titleTemplate]
           ∧ bar_data b !! "title" = Some title
           ∧ bar_template b = Some titleTemplate)
      ∧ (Title p = Some EmptyString →
           calls w' = calls w ++
             [CallNew64 bar (Total p); CallAssertTitleProgressable; CallTitle]
           ∧ b = Bar.new64 (Total p))
      ∧ (Title p = None →
           calls w' = calls w ++
             [CallNew64 bar (Total p); CallAssertTitleProgressable]
           ∧ b = Bar.new64 (Total p))
      ∧ (∀ sched, ∃ st w'' b'',
           run g sched w' = (st, w'')
           ∧ count is_title (drop (length (calls w')) (calls w'')) = 0%nat
           ∧ heap w'' !! bar = Some b''
           ∧ bar_data b'' = bar_data b
           ∧ bar_template b'' = bar_template b).
Proof.
  intros. rewrite registration_world. eexists _, _, _, _.
  split; [reflexivity|]. simpl. rewrite lookup_insert_eq.
  split; [reflexivity|]. split; [reflexivity|]. split; [reflexivity|].
  unfold titled, title_calls. repeat split.
  - rewrite H. by rewrite decide_False.
  - rewrite H. rewrite decide_False by done. simpl. apply lookup_insert_eq.
  - rewrite H. by rewrite decide_False.
  - by rewrite H.
  - by rewrite H.
  - by rewrite H.
  - by rewrite H.
  - intros sched. unfold run. simpl.
    match goal with |- context [progressWorker ?c ?b ?r sched ?w0] =>
      destruct (progressWorker_any c b r sched w0)
        as (st & w'' & t & Hrun & Hcalls & _ & Htitle & _ & _ & Hbar)
    end.
    destruct (Hbar _ (lookup_insert_eq _ _ _)) as (b'' & Hb'' & Hd & Ht).
    exists st, w'', b''. rewrite Hrun, Hcalls. simpl.
    rewrite drop_app_length. repeat split; assumption.
Qed.



(** The other order, the worker running once RegisterContext has returned
    and the completion seen twice: the bar is out of the pool. *)
Example removeFunc_after_registration :
  ∃ w1 g w2,
    RegisterContext (Some Cancellable) (Some (mock 100 0)) factory0
      = (None, w1)
    ∧ goroutines w1 = [g]
    ∧ run g schedTwice w1 = (Returned, w2)
    ∧ count is_removeFunc (drop (length (calls w1)) (calls w2)) = 1%nat
    ∧ bars (FPool (env w2)) = []
    ∧ FWg (env w2) = mkWaitGroup 0 false.
Proof. eexists _, _, _. repeat split. Qed.

Lemma title_probed_once_witness :
  ∃ bar w' b,
    RegisterProgressableContext (Some Background)
      (Some (mockWithTitle 100 "Upload:")) (Some noRemove) (emptyWorld tt)
      = (inr bar, w')
    ∧ heap w' !! bar = Some b
    ∧ bar_data b !! "title" = Some "Upload:"
    ∧ bar_template b = Some titleTemplate.
Proof.
  destruct (title_probed_once unit (Some Background)
              (mockWithTitle 100 "Upload:") noRemove (emptyWorld tt))
    as (bar & w' & b & g & Hreg & Hb & _ & _ & Htitle & _).
  destruct (Htitle "Upload:") as (_ & Hdata & Htemplate).
  - reflexivity.
  - discriminate.
  - exists bar, w', b. repeat split; assumption.
Defined.

(** ** The Unix print *)

Lemma append_assoc (a b c : string) : (a +:+ b) +:+ c = a +:+ b +:+ c.
Proof.
  induction a as [|x a IH]; [reflexivity|].
  change (String x ((a +:+ b) +:+ c) = String x (a +:+ b +:+ c)).
  by rewrite IH.
Qed.

Lemma append_empty_r (a : string) : a +:+ EmptyString = a.
Proof.
  induction a as [|x a IH]; [reflexivity|].
  change (String x (a +:+ EmptyString) = String x a). by rewrite IH.
Qed.

Section PrintFacts.

Variable BarString : ProgressBar → string.
Variable CellCount : string → Z.
Variable defaultBarWidth : Z.

Lemma IsFinished_alter cols (h : gmap ptr ProgressBar) bar x :
  IsFinished (alter (Bar.set_width cols) bar h) x = IsFinished h x.
Proof.
  unfold IsFinished. rewrite lookup_total_alter. case_decide; [subst|done].
  rewrite lookup_total_alt. by destruct (h !! x).
Qed.

Lemma line_alter cols (h : gmap ptr ProgressBar) bar x :
  line BarString CellCount cols (alter (Bar.set_width cols) bar h) x
  = line BarString CellCount cols h x.
Proof.
  unfold line. do 3 f_equal. rewrite !lookup_total_alter_eq, lookup_alter.
  case_decide; [subst|done]. by destruct (h !! x).
Qed.

Lemma forallb_IsFinished_alter cols (h : gmap ptr ProgressBar) bar bs :
  forallb (IsFinished (alter (Bar.set_width cols) bar h)) bs
  = forallb (IsFinished h) bs.
Proof. induction bs; simpl; [done|]. by rewrite IsFinished_alter, IHbs. Qed.

Lemma lines_alter cols (h : gmap ptr ProgressBar) bar bs :
  lines BarString CellCount cols (alter (Bar.set_width cols) bar h) bs
  = lines BarString CellCount cols h bs.
Proof. induction bs; simpl; [done|]. by rewrite line_alter, IHbs. Qed.

(** The loop of the Unix print over a slice of bars: the flag is the
    conjunction of their finished flags, the text their lines in order. *)
Lemma foldl_draw cols bs fin out (h : gmap ptr ProgressBar) :
  foldl (draw BarString CellCount cols) (fin, out, h) bs
  = (fin && forallb (IsFinished h) bs,
     out +:+ lines BarString CellCount cols h bs,
     widened cols h bs).
Proof.
  revert fin out h. induction bs as [|bar bs IH]; intros fin out h; simpl.
  - by rewrite andb_true_r, append_empty_r.
  - rewrite IH, forallb_IsFinished_alter, lines_alter.
    unfold line. rewrite !append_assoc.
    by destruct (IsFinished h bar), fin.
Qed.

Lemma compose_eq t first s :
  compose BarString CellCount defaultBarWidth t first s
  = let cols := if size_err t is Some _ then defaultBarWidth
                else size_cols t in
    let shown := visible (size_rows t) (bars (s_pool s)) in
    (forallb (IsFinished (s_heap s)) shown,
     cursor_up first (lastBarsCount (s_pool s))
       +:+ lines BarString CellCount cols (s_heap s) shown,
     widened cols (s_heap s) shown, shown).
Proof.
  unfold compose. simpl. rewrite foldl_draw. simpl.
  by destruct first.
Qed.

Lemma print_eq t first s :
  print BarString CellCount defaultBarWidth t first s
  = let '(fin, out, h, shown) :=
      compose BarString CellCount defaultBarWidth t first s in
    (fin,
     mkScreen h
       (mkPool (bars (s_pool s)) (Z.of_nat (length shown))
               (emit (s_pool s) (s_stderr s) out).1)
       (emit (s_pool s) (s_stderr s) out).2 (s_cursor s)).
Proof.
  unfold print.
  destruct (compose BarString CellCount defaultBarWidth t first s)
    as [[[fin out] h] shown].
  by destruct (emit (s_pool s) (s_stderr s) out).
Qed.

End PrintFacts.

Section PrintClaims.

Variable BarString : ProgressBar → string.
Variable CellCount : string → Z.
Variable defaultBarWidth : Z.


Lemma visible_all rows (bs : list ptr) :
  Z.of_nat (length bs) ≤ rows ∨ rows ≤ 0 → visible rows bs = bs.
Proof.
  intros Hrows. unfold visible.
  destruct (Z.ltb_spec 0 rows); [|done].
  destruct (Z.ltb_spec rows (Z.of_nat (length bs))); [lia|done].
Qed.


(** What the Unix print answers: whether the bars it has drawn are all
    finished. *)
Lemma print_result_visible t first s :
  (print BarString CellCount defaultBarWidth t first s).1
  = forallb (IsFinished (s_heap s)) (visible (size_rows t) (bars (s_pool s))).
Proof. by rewrite print_eq, compose_eq. Qed.

(** The loop of the Windows print, over every bar of the pool. *)
Lemma foldl_draw_win cols bs fin out (h : gmap ptr ProgressBar) :
  foldl (draw_win BarString CellCount cols) (fin, out, h) bs
  = (fin && forallb (IsFinished h) bs,
     out +:+ foldr (λ bar acc,
                      (CR +:+ pad CellCount cols (BarString (h !!! bar))
                          +:+ LF) +:+ acc) EmptyString bs,
     h).
Proof.
  revert fin out. induction bs as [|bar bs IH]; intros fin out; simpl.
  - by rewrite andb_true_r, append_empty_r.
  - rewrite IH, !append_assoc. by destruct (IsFinished h bar), fin.
Qed.

(** What the Windows print answers: whether all the bars of the pool are
    finished. *)
Lemma print_win_result_all t first s :
  (print_win BarString CellCount defaultBarWidth t first s).1
  = forallb (IsFinished (s_heap s)) (bars (s_pool s)).
Proof.
  unfold print_win, compose_win.
  destruct (if negb first then _ else _) as [stderr cursor]. simpl.
  rewrite foldl_draw_win. simpl.
  by destruct (emit _ _ _).
Qed.

(** Where the two prints do agree: without overflow (or without a known
    height) both answer whether all the bars of the pool are finished. *)
Lemma print_results_agree_without_overflow t first s :
  Z.of_nat (length (bars (s_pool s))) ≤ size_rows t ∨ size_rows t ≤ 0 →
  (print BarString CellCount defaultBarWidth t first s).1
  = (print_win BarString CellCount defaultBarWidth t first s).1.
Proof.
  intros Hrows.
  by rewrite print_result_visible, print_win_result_all, visible_all.
Qed.

End PrintClaims.


(** C4 fails on the Unix print: one row, bar 0 running and elided, bar 1
    finished and drawn; the frame reports that all bars are finished while
    bar 0, still in the pool, is not. *)
Lemma print_finished_with_running_bar_elided :
  (print counters cells 100 (terminal_of 1 12) true screen2).1 = true
  ∧ bars (s_pool (print counters cells 100 (terminal_of 1 12) true screen2).2)
    = [0%nat; 1%nat]
  ∧ IsFinished (s_heap screen2) 0%nat = false.
Proof. vm_compute. repeat split. Qed.

(** C3 fails: on the same pool, one row and twelve columns, the Unix print
    draws bar 1 alone and answers true; the Windows print draws bars 0 and 1
    and answers false. *)
Lemma print_strategies_differ :
  let unix := print counters cells 100 (terminal_of 1 12) true screen2 in
  let win := print_win counters cells 100 (terminal_of 1 12) true screen2 in
  unix.1 = true ∧ win.1 = false
  ∧ lastBarsCount (s_pool unix.2) = 1 ∧ lastBarsCount (s_pool win.2) = 2
  ∧ (written <$> Output (s_pool unix.2))
    = Some (CR +:+ "100 / 100   " +:+ LF)
  ∧ (written <$> Output (s_pool win.2))
    = Some (CR +:+ "10 / 100    " +:+ LF +:+ CR +:+ "100 / 100   " +:+ LF).
Proof. vm_compute. repeat split. Qed.

(** ** More on the bridge worker *)

Section WorkerMore.

Context {E : Type}.
Implicit Types (w : World E) (rf : RemoveFunc E) (sched pre post : list wakeup).

Lemma ticked_finished' b pre :
  bar_finished (foldl ticked b pre) = bar_finished b.
Proof.
  revert b. induction pre as [|[[cause| |ok] pr] pre IH]; intros b; simpl;
    [done|by rewrite IH..].
Qed.

(** On any schedule the worker's world differs from the one it started in
    by a change to its own bar, to what the callback captured, and by the
    calls made. *)
Lemma progressWorker_shape ctx bar rf sched w :
  ∃ st f e t,
    progressWorker ctx bar rf sched w
    = (st, mkWorld (alter f bar (heap w)) (next w) e (goroutines w)
                   (calls w ++ t)).
Proof.
  destruct (first_terminal ctx sched)
    as [Hall|(pre & wk & post & -> & Hpre & Hwk)].
  - rewrite progressWorker_prefix by done. by eexists _, _, _, _.
  - rewrite (progressWorker_terminal ctx bar rf pre wk post w Hpre Hwk).
    rewrite progressWorker_prefix by done. simpl.
    destruct (fired wk); rewrite ?cancel_step, ?complete_step; simpl;
      rewrite alter_alter_eq, <- app_assoc; by eexists _, _, _, _.
Qed.


(** X2. While the worker is running, the bar shows what the source reported
    at the latest tick: after any run of non-terminal wake-ups followed by a
    tick, the bar's total and current value are the source's at that tick,
    and the worker is still parked. *)
Theorem bar_shows_latest_tick ctx bar rf pre pr w b :
  Forall (λ wk, terminal ctx wk = false) pre →
  heap w !! bar = Some b →
  ∃ w' b',
    progressWorker ctx bar rf (pre ++ [tick pr]) w = (Blocked, w')
    ∧ heap w' !! bar = Some b'
    ∧ bar_total b' = Total pr
    ∧ bar_current b' = Value pr
    ∧ bar_finished b' = bar_finished b
    ∧ bar_err b' = bar_err b.
Proof.
  intros Hpre Hb.
  rewrite progressWorker_prefix
    by (apply Forall_app; split; [done|by repeat constructor]).
  eexists _, _. split; [reflexivity|]. simpl.
  rewrite lookup_alter_eq, Hb. simpl. split; [reflexivity|].
  rewrite foldl_app. simpl.
  by rewrite ticked_finished', ticked_err.
Qed.

(** X3. Wake-ups the worker does not act on change nothing: dropping from a
    schedule every value received on the finished channel (ok true) and,
    under a background context, every Done, gives the same result. *)
Theorem worker_ignores_idle_wakeups ctx bar rf sched w :
  progressWorker ctx bar rf (filter (λ wk, effective ctx wk = true) sched) w
  = progressWorker ctx bar rf sched w.
Proof.
  revert w. induction sched as [|[[cause| |ok] pr] sched IH]; intros w.
  - reflexivity.
  - destruct ctx.
    + rewrite filter_cons_False by (simpl; discriminate). simpl. apply IH.
    + rewrite filter_cons_True by reflexivity. reflexivity.
  - rewrite filter_cons_True by reflexivity. simpl. apply IH.
  - destruct ok.
    + rewrite filter_cons_False by (simpl; discriminate). simpl. apply IH.
    + rewrite filter_cons_True by reflexivity. reflexivity.
Qed.


End WorkerMore.

Lemma bar_shows_latest_tick_witness :
  ∃ w' b',
    progressWorker Cancellable 0%nat noRemove
      [tick (mock 150 0); tick (mock 180 40)] registered150 = (Blocked, w')
    ∧ heap w' !! 0%nat = Some b'
    ∧ bar_total b' = 180 ∧ bar_current b' = 40.
Proof.
  destruct (bar_shows_latest_tick Cancellable 0%nat noRemove
              [tick (mock 150 0)] (mock 180 40) registered150
              (Bar.new64 150))
    as (w' & b' & Hrun & Hb' & Htot & Hcur & _).
  - repeat constructor.
  - reflexivity.
  - exists w', b'. repeat split; assumption.
Defined.


(** ** More on registration *)

Section RegistrationMore.

Context {E : Type}.
Implicit Types (w : World E) (rf : RemoveFunc E).

(** X5. [hasTitle] with a nil source or a nil bar does nothing.  Otherwise
    it touches the title entry and the template of its bar at most: the
    total, current value, error, finished flag and width of that bar, every
    other entry of its data, every other bar, and what callbacks captured
    are as before; and it starts nothing. *)
Theorem hasTitle_touches_title_only :
  (∀ bar w, hasTitle None bar w = w)
  ∧ (∀ pr w, hasTitle pr None w = w)
  ∧ (∀ p bar w,
       let w' := hasTitle (Some p) (Some bar) w in
       next w' = next w ∧ env w' = env w ∧ goroutines w' = goroutines w
       ∧ (∀ x, x ≠ bar → heap w' !! x = heap w !! x)
       ∧ (∀ b, heap w !! bar = Some b →
            ∃ b', heap w' !! bar = Some b'
              ∧ bar_total b' = bar_total b
              ∧ bar_current b' = bar_current b
              ∧ bar_err b' = bar_err b
              ∧ bar_finished b' = bar_finished b
              ∧ bar_width b' = bar_width b
              ∧ (∀ k, k ≠ "title" → bar_data b' !! k = bar_data b !! k))).
Proof.
  split; [done|]. split; [by intros [?|] ?|].
  intros p bar w. unfold hasTitle. destruct (Title p) as [title|]; simpl.
  - destruct (decide (title = EmptyString)); simpl.
    + repeat split; try done. intros b Hb. exists b. by repeat split.
    + repeat split; try done.
      * intros x Hx. by rewrite !lookup_alter_ne.
      * intros b Hb. rewrite alter_alter_eq, lookup_alter_eq, Hb. simpl.
        eexists. split; [reflexivity|]. simpl. repeat split.
        intros k Hk. by rewrite lookup_insert_ne.
  - repeat split; try done. intros b Hb. exists b. by repeat split.
Qed.

(** X6. In a world whose bars all lie below the allocation pointer, a
    registration returns a pointer that designated no bar, leaves every bar
    that existed as it was, and keeps the world in that shape: bars of
    successive registrations never alias. *)
Theorem registration_allocates_fresh ctx p rf w :
  heap_below w →
  ∃ bar w',
    RegisterProgressableContext ctx (Some p) (Some rf) w = (inr bar, w')
    ∧ heap w !! bar = None
    ∧ is_Some (heap w' !! bar)
    ∧ (∀ x, x ≠ bar → heap w' !! x = heap w !! x)
    ∧ heap_below w'.
Proof.
  intros Hw. rewrite registration_world. eexists _, _.
  split; [reflexivity|]. simpl.
  assert (heap w !! next w = None) as Hfresh.
  { destruct (heap w !! next w) eqn:Hx; [|done].
    specialize (Hw (next w) (mk_is_Some _ _ Hx)). lia. }
  split; [done|]. split; [by rewrite lookup_insert_eq|]. split.
  - intros x Hx. by rewrite lookup_insert_ne.
  - intros x. unfold heap_below in Hw. simpl. rewrite lookup_insert.
    case_decide; [subst; lia|]. intros Hx. specialize (Hw x Hx). lia.
Qed.

End RegistrationMore.

Lemma registration_allocates_fresh_witness :
  ∃ bar w',
    RegisterProgressableContext (Some Background) (Some (mock 200 0))
      (Some noRemove) registered150 = (inr bar, w')
    ∧ heap registered150 !! bar = None
    ∧ heap w' !! 0%nat = heap registered150 !! 0%nat.
Proof.
  destruct (registration_allocates_fresh (Some Background) (mock 200 0)
              noRemove registered150)
    as (bar & w' & Hreg & Hfresh & _ & Hframe & _).
  - intros x [b Hx]. unfold registered150 in *.
    rewrite registration_world in *. simpl in *.
    destruct x; [lia|]. by rewrite lookup_insert_ne, lookup_empty in Hx.
  - exists bar, w'. split; [assumption|]. split; [assumption|].
    apply Hframe. intros <-. vm_compute in Hfresh. discriminate.
Defined.

(** ** More on the Unix print *)

Lemma set_width_twice cols (o : option ProgressBar) :
  Bar.set_width cols <$> (Bar.set_width cols <$> o) = Bar.set_width cols <$> o.
Proof. by destruct o. Qed.

(** The bars of a frame: those gone over have the frame's width, the others
    are as they were. *)
Lemma widened_lookup cols (h : gmap ptr ProgressBar) bs x :
  widened cols h bs !! x
  = if decide (x ∈ bs) then Bar.set_width cols <$> h !! x else h !! x.
Proof.
  revert h. induction bs as [|a bs IH]; intros h.
  - case_decide as Hin; [by apply elem_of_nil in Hin|done].
  - change (widened cols h (a :: bs))
      with (widened cols (alter (Bar.set_width cols) a h) bs).
    rewrite IH. destruct (decide (x = a)) as [->|Hne].
    + rewrite lookup_alter_eq, set_width_twice.
      destruct (decide (a ∈ bs)); destruct (decide (a ∈ a :: bs)) as [|Hn];
        try done; exfalso; apply Hn; by left.
    + rewrite lookup_alter_ne by done.
      destruct (decide (x ∈ bs)) as [Hin|Hin];
        destruct (decide (x ∈ a :: bs)) as [Hin'|Hin']; try done.
      * exfalso. apply Hin'. by right.
      * exfalso. apply elem_of_cons in Hin' as [?|?]; done.
Qed.

Section PrintMore.

Variable BarString : ProgressBar → string.
Variable CellCount : string → Z.
Variable defaultBarWidth : Z.

Lemma IsFinished_widened cols (h : gmap ptr ProgressBar) bs x :
  IsFinished (widened cols h bs) x = IsFinished h x.
Proof.
  unfold IsFinished. rewrite !lookup_total_alt, widened_lookup.
  case_decide; [|done]. by destruct (h !! x).
Qed.

Lemma line_widened cols (h : gmap ptr ProgressBar) bs x :
  line BarString CellCount cols (widened cols h bs) x
  = line BarString CellCount cols h x.
Proof.
  unfold line. do 3 f_equal. rewrite !lookup_total_alter_eq, widened_lookup.
  case_decide; [|done]. by rewrite set_width_twice.
Qed.

Lemma widened_twice cols (h : gmap ptr ProgressBar) bs :
  widened cols (widened cols h bs) bs = widened cols h bs.
Proof.
  apply map_eq. intros x. rewrite !widened_lookup.
  case_decide; [|done]. by rewrite set_width_twice.
Qed.

(** X7. A frame of the Unix print changes the width of the bars it draws
    and nothing else about the bars: a bar of the slice shown gets the
    frame's width, every other bar is as it was; the pool's list of bars
    and the console cursor are as before. *)
Theorem print_sets_widths_only t first s :
  let s' := (print BarString CellCount defaultBarWidth t first s).2 in
  let cols := if size_err t is Some _ then defaultBarWidth else size_cols t in
  let shown := visible (size_rows t) (bars (s_pool s)) in
  bars (s_pool s') = bars (s_pool s)
  ∧ s_cursor s' = s_cursor s
  ∧ ∀ x, s_heap s' !! x
         = if decide (x ∈ shown) then Bar.set_width cols <$> s_heap s !! x
           else s_heap s !! x.
Proof.
  rewrite print_eq, compose_eq. simpl. split; [done|]. split; [done|].
  intros x. apply widened_lookup.
Qed.

Lemma visible_length rows (bs : list ptr) :
  (length (visible rows bs) ≤ length bs)%nat
  ∧ (0 < rows → Z.of_nat (length (visible rows bs)) ≤ rows).
Proof.
  unfold visible. destruct (Z.ltb_spec 0 rows); simpl.
  - destruct (Z.ltb_spec rows (Z.of_nat (length bs))).
    + rewrite length_drop. lia.
    + lia.
  - lia.
Qed.

(** X8. The count a frame keeps for the next cursor-up is never more than
    the number of bars and, when the height is known, never more than the
    number of rows: the next frame cannot move the cursor above the top of
    the terminal. *)
Theorem lastBarsCount_bounded t first s :
  let n := lastBarsCount
             (s_pool (print BarString CellCount defaultBarWidth t first s).2) in
  0 ≤ n ≤ Z.of_nat (length (bars (s_pool s)))
  ∧ (0 < size_rows t → n ≤ size_rows t).
Proof.
  rewrite print_eq, compose_eq. simpl.
  destruct (visible_length (size_rows t) (bars (s_pool s))) as [H1 H2].
  split; [lia|exact H2].
Qed.

(** X9. Two frames in a row on an unchanged terminal and unchanged bars: the
    second answers as the first, composes the same lines, prefixed by a
    cursor-up of exactly the number of lines the first composed, and leaves
    bars and count as the first left them. *)
Theorem second_frame_overwrites_first t first s :
  let r1 := print BarString CellCount defaultBarWidth t first s in
  let r2 := print BarString CellCount defaultBarWidth t false r1.2 in
  let cols := if size_err t is Some _ then defaultBarWidth else size_cols t in
  let shown := visible (size_rows t) (bars (s_pool s)) in
  let body := lines BarString CellCount cols (s_heap s) shown in
  r2.1 = r1.1
  ∧ (compose BarString CellCount defaultBarWidth t first s).1.1.2
    = cursor_up first (lastBarsCount (s_pool s)) +:+ body
  ∧ (compose BarString CellCount defaultBarWidth t false r1.2).1.1.2
    = ESC +:+ "[" +:+ pretty (Z.of_nat (length shown)) +:+ "A" +:+ body
  ∧ s_heap r2.2 = s_heap r1.2
  ∧ lastBarsCount (s_pool r2.2) = lastBarsCount (s_pool r1.2).
Proof.
  rewrite !print_eq, !compose_eq. simpl.
  rewrite !print_eq, !compose_eq. simpl.
  set (cols := if size_err t is Some _ then defaultBarWidth else size_cols t).
  set (shown := visible (size_rows t) (bars (s_pool s))).
  assert (∀ bs, lines BarString CellCount cols
                  (widened cols (s_heap s) shown) bs
                = lines BarString CellCount cols (s_heap s) bs) as Hlines.
  { induction bs as [|a bs IH]; simpl; [done|].
    by rewrite line_widened, IH. }
  assert (∀ bs, forallb (IsFinished (widened cols (s_heap s) shown)) bs
                = forallb (IsFinished (s_heap s)) bs) as Hfin.
  { induction bs as [|a bs IH]; simpl; [done|].
    by rewrite IsFinished_widened, IH. }
  rewrite Hlines, Hfin, widened_twice, !append_assoc. by repeat split.
Qed.

(** X10. The write at the end of a frame.  With a sink that accepts the
    write, the composed text is appended to it and standard error is left
    alone; with a failing sink the sink gets nothing and standard error
    gets one line naming the error; without a sink the text goes to standard
    error.  In each case the answer, the bars and the count are those of the
    composition: a failed write changes none of them. *)
Theorem print_write_outcomes t first s :
  let r := print BarString CellCount defaultBarWidth t first s in
  let c := compose BarString CellCount defaultBarWidth t first s in
  let out := c.1.1.2 in
  r.1 = c.1.1.1
  ∧ s_heap r.2 = c.1.2
  ∧ lastBarsCount (s_pool r.2) = Z.of_nat (length c.2)
  ∧ (∀ wr, Output (s_pool s) = Some wr → failing wr = None →
       Output (s_pool r.2) = Some (mkWriter (written wr +:+ out) None)
       ∧ s_stderr r.2 = s_stderr s)
  ∧ (∀ wr e, Output (s_pool s) = Some wr → failing wr = Some e →
       Output (s_pool r.2) = Some wr
       ∧ s_stderr r.2
         = (Fprint (s_stderr s) ("pool print error: " +:+ e +:+ LF)).1)
  ∧ (Output (s_pool s) = None → failing (s_stderr s) = None →
       Output (s_pool r.2) = None
       ∧ s_stderr r.2 = mkWriter (written (s_stderr s) +:+ out) None).
Proof.
  rewrite print_eq.
  destruct (compose BarString CellCount defaultBarWidth t first s)
    as [[[fin out] h] shown]. simpl.
  split; [done|]. split; [done|]. split; [done|].
  unfold emit, Fprint.
  split; [|split].
  - intros wr Hout Hok. by rewrite Hout, Hok.
  - intros wr e Hout Hfail. by rewrite Hout, Hfail.
  - intros Hout Hok. by rewrite Hout, Hok.
Qed.

End PrintMore.

Lemma length_append (a b : string) :
  String.length (a +:+ b) = (String.length a + String.length b)%nat.
Proof.
  induction a as [|x a IH]; [reflexivity|].
  change (S (String.length (a +:+ b))
          = S (String.length a + String.length b)). by rewrite IH.
Qed.

Lemma length_Repeat_space (r : Z) :
  String.length (Repeat " " r) = Z.to_nat r.
Proof.
  unfold Repeat. induction (Z.to_nat r) as [|n IH]; [reflexivity|].
  simpl. change (S (String.length (Nat.iter n (λ acc, " " +:+ acc) EmptyString))
                 = S n). by rewrite IH.
Qed.

(** Counting characters, a space is one cell. *)
Lemma cells_spaces (s : string) (r : Z) :
  0 ≤ r → cells (s +:+ Repeat " " r) = cells s + r.
Proof.
  intros Hr. unfold cells. rewrite length_append, length_Repeat_space. lia.
Qed.

Lemma forallb_elem_of {A} (f : A → bool) (l : list A) :
  forallb f l = true ↔ ∀ x, x ∈ l → f x = true.
Proof.
  induction l as [|a l IH]; simpl.
  - split; [|done]. by intros _ x ?%elem_of_nil.
  - rewrite andb_true_iff, IH. split.
    + intros [Ha Hl] x [->|Hx]%elem_of_cons; auto.
    + intros H. split; [apply H; by left|]. intros x Hx. apply H. by right.
Qed.

Section PrintWidth.

Variable BarString : ProgressBar → string.
Variable CellCount : string → Z.
Variable defaultBarWidth : Z.

(** X11. The padding of a line never shortens it: the text of a bar is kept
    whole and followed by spaces, none when it already fills the width.
    When a trailing space counts for one cell, the padded text is as wide as
    the terminal if the bar's text fits, and as wide as the bar's text
    otherwise. *)
Theorem pad_fills_never_truncates cols s :
  (∀ s' r, 0 ≤ r → CellCount (s' +:+ Repeat " " r) = CellCount s' + r) →
  pad CellCount cols s
    = s +:+ Repeat " " (Z.max 0 (cols - CellCount s))
  ∧ CellCount (pad CellCount cols s) = Z.max cols (CellCount s).
Proof.
  intros Hsp. unfold pad. destruct (Z.ltb_spec 0 (cols - CellCount s)).
  - rewrite Z.max_r by lia. split; [done|]. rewrite Hsp by lia. lia.
  - rewrite Z.max_l by lia. split; [|lia].
    change (Repeat " " 0) with EmptyString. by rewrite append_empty_r.
Qed.

(** X12. What the Unix print answers: true exactly when every bar of the
    slice it has drawn is finished; so, when the bars do not overflow the
    height (or the height is unknown), exactly when every bar of the pool is
    finished. *)
Theorem print_answers_for_drawn_bars t first s :
  ((print BarString CellCount defaultBarWidth t first s).1 = true
   ↔ ∀ x, x ∈ visible (size_rows t) (bars (s_pool s)) →
          bar_finished (s_heap s !!! x) = true)
  ∧ (Z.of_nat (length (bars (s_pool s))) ≤ size_rows t ∨ size_rows t ≤ 0 →
     ((print BarString CellCount defaultBarWidth t first s).1 = true
      ↔ ∀ x, x ∈ bars (s_pool s) → bar_finished (s_heap s !!! x) = true)).
Proof.
  rewrite print_result_visible. split.
  - apply forallb_elem_of.
  - intros Hrows. rewrite visible_all by done. apply forallb_elem_of.
Qed.

(** X13. The Windows print answers true exactly when every bar of the pool
    is finished; it goes over all the bars whatever the height, records
    their number, and changes no bar and not the list of bars. *)
Theorem print_win_checks_every_bar t first s :
  let r := print_win BarString CellCount defaultBarWidth t first s in
  (r.1 = true
   ↔ ∀ x, x ∈ bars (s_pool s) → bar_finished (s_heap s !!! x) = true)
  ∧ s_heap r.2 = s_heap s
  ∧ bars (s_pool r.2) = bars (s_pool s)
  ∧ lastBarsCount (s_pool r.2) = Z.of_nat (length (bars (s_pool s))).
Proof.
  simpl. split.
  - rewrite print_win_result_all. apply forallb_elem_of.
  - unfold print_win, compose_win.
    destruct (if negb first then _ else _) as [stderr cursor]. simpl.
    rewrite foldl_draw_win. simpl. by destruct (emit _ _ _).
Qed.

(** X14. The cursor move at the head of a Windows frame other than the
    first, when the console answers both calls: for a cursor row and a
    count within the range of an int16, the cursor goes to column 0 of the
    row that many lines up, and to row 0 when that would be above the
    top. *)
Theorem reposition_moves_up_clamped t s :
  getpos_err t = None →
  setpos_err t = None →
  0 ≤ Y (s_cursor s) ≤ 32767 →
  0 ≤ lastBarsCount (s_pool s) ≤ 32767 →
  s_cursor (print_win BarString CellCount defaultBarWidth t false s).2
  = mkCoord 0 (Z.max 0 (Y (s_cursor s) - lastBarsCount (s_pool s))).
Proof.
  intros Hget Hset HY Hn. unfold print_win, compose_win, reposition.
  rewrite Hget, Hset. simpl.
  destruct (foldl _ _ _) as [[fin out] h].
  destruct (emit _ _ _). simpl. f_equal.
  unfold int16.
  rewrite (Z.mod_small (lastBarsCount (s_pool s) + 2 ^ 15)) by lia.
  replace (lastBarsCount (s_pool s) + 2 ^ 15 - 2 ^ 15)
    with (lastBarsCount (s_pool s)) by lia.
  rewrite Z.mod_small by lia.
  destruct (Z.ltb_spec (Y (s_cursor s) - lastBarsCount (s_pool s)
                        + 2 ^ 15 - 2 ^ 15) 0); lia.
Qed.

(** X15. Cursor failures do not stop a Windows frame: whatever GetCursorPos
    and SetCursorPos answer, the frame's answer, the text it composes, the
    bars and the count are the same; when either call fails the cursor
    stays where it was, as it does on a first frame. *)
Theorem print_win_survives_cursor_errors t first s e1 e2 :
  let t' := mkTermutil (size_rows t) (size_cols t) (size_err t)
                       (width_cols t) (width_err t) e1 e2 in
  let c := compose_win BarString CellCount defaultBarWidth t first s in
  let c' := compose_win BarString CellCount defaultBarWidth t' first s in
  c'.1.1 = c.1.1
  ∧ (is_Some e1 ∨ is_Some e2 ∨ first = true →
     s_cursor (print_win BarString CellCount defaultBarWidth t' first s).2
     = s_cursor s).
Proof.
  simpl. unfold print_win, compose_win. split.
  - destruct (if negb first then reposition t _ _ _ else _).
    destruct (if negb first then reposition _ _ _ _ else _). simpl.
    by destruct (foldl _ _ _) as [[fin out] h].
  - intros Herr.
    assert ((if negb first
             then reposition
                    (mkTermutil (size_rows t) (size_cols t) (size_err t)
                       (width_cols t) (width_err t) e1 e2)
                    (s_pool s) (s_stderr s) (s_cursor s)
             else (s_stderr s, s_cursor s)).2 = s_cursor s) as Hcur.
    { destruct first; [done|]. simpl. unfold reposition. simpl.
      destruct e1; [done|]. destruct e2; [done|].
      destruct Herr as [[? ?]|[[? ?]|?]]; done. }
    destruct (if negb first then _ else _) as [stderr cursor].
    simpl in *. subst cursor.
    destruct (foldl _ _ _) as [[fin out] h]. by destruct (emit _ _ _).
Qed.

(** X16. Where the two prints coincide: on a first frame, with the same
    width answered to both, no overflow of the height, and every bar of the
    pool already at that width, the Unix print and the Windows print give
    the same answer and leave the same screen: same text to the same sink,
    same bars, same count. *)
Theorem prints_coincide_on_first_frame t s :
  let cols := if size_err t is Some _ then defaultBarWidth else size_cols t in
  size_cols t = width_cols t →
  size_err t = width_err t →
  Z.of_nat (length (bars (s_pool s))) ≤ size_rows t ∨ size_rows t ≤ 0 →
  (∀ x, x ∈ bars (s_pool s) →
        ∃ b, s_heap s !! x = Some b ∧ bar_width b = cols) →
  print BarString CellCount defaultBarWidth t true s
  = print_win BarString CellCount defaultBarWidth t true s.
Proof.
  intros cols Hcols Herr Hrows Hwidth.
  assert (∀ x, x ∈ bars (s_pool s) →
            Bar.set_width cols <$> s_heap s !! x = s_heap s !! x) as Hsw.
  { intros x Hx. destruct (Hwidth x Hx) as (b & -> & Hb). simpl.
    destruct b. simpl in *. by subst. }
  rewrite print_eq, compose_eq. simpl. fold cols.
  rewrite visible_all by done.
  unfold print_win, compose_win. simpl.
  rewrite <- Hcols, <- Herr. fold cols.
  rewrite foldl_draw_win. simpl.
  assert (widened cols (s_heap s) (bars (s_pool s)) = s_heap s) as ->.
  { apply map_eq. intros x. rewrite widened_lookup. case_decide; auto. }
  assert (lines BarString CellCount cols (s_heap s) (bars (s_pool s))
          = foldr (λ bar acc,
                     (CR +:+ pad CellCount cols (BarString (s_heap s !!! bar))
                         +:+ LF) +:+ acc) EmptyString (bars (s_pool s)))
    as ->.
  { revert Hsw. generalize (bars (s_pool s)). intros bs Hsw.
    induction bs as [|a bs IH]; simpl; [done|].
    rewrite IH by (intros x Hx; apply Hsw; by right).
    unfold line. do 4 f_equal.
    rewrite lookup_total_alter_eq, lookup_total_alt, Hsw by (by left).
    done. }
  by destruct (emit _ _ _).
Qed.

End PrintWidth.

(** ** The demo source *)

Lemma int64_small (z : Z) : - 2 ^ 63 ≤ z < 2 ^ 63 → int64 z = z.
Proof. intros Hz. unfold int64. rewrite Z.mod_small; lia. Qed.

(** One tick of the demo worker before the value has reached the total: the
    value grows by 10 to 29, capped at the total. *)
Lemma demo_tick_grows nano (m : Demo.MockProgressable) :
  0 ≤ nano →
  - 2 ^ 63 ≤ Demo.value m < Demo.total m →
  Demo.total m ≤ 2 ^ 63 - 30 →
  ∃ v, Demo.tick nano m
       = (Blocked, Demo.mkMock (Demo.total m) v (Demo.title m) (Demo.closed m))
     ∧ Z.min (Demo.total m) (Demo.value m + 10) ≤ v ≤ Demo.total m.
Proof.
  intros Hnano Hv Ht. unfold Demo.tick.
  destruct (Z.leb_spec (Demo.total m) (Demo.value m)); [lia|].
  assert (0 ≤ Z.rem nano 20 < 20) as Hrem by (apply Z.rem_bound_pos; lia).
  rewrite (int64_small (10 + Z.rem nano 20)) by lia.
  rewrite int64_small by lia.
  eexists. split; [reflexivity|].
  destruct (Z.ltb_spec (Demo.total m) (Demo.value m + (10 + Z.rem nano 20)));
    lia.
Qed.

(** X17. The demo source never overshoots: with clock readings that are not
    negative and a total at least 30 below the largest int64, on any number
    of ticks the value only grows and stays at or below the total, the total
    and the title are untouched, and the channel is closed only by the
    worker returning, which it does with the value equal to the total. *)
Theorem demo_value_within_total nanos (m : Demo.MockProgressable) :
  Forall (λ nano, 0 ≤ nano) nanos →
  - 2 ^ 63 ≤ Demo.value m ≤ Demo.total m →
  Demo.total m ≤ 2 ^ 63 - 30 →
  ∃ st m',
    Demo.worker nanos m = (st, m')
    ∧ Demo.total m' = Demo.total m
    ∧ Demo.title m' = Demo.title m
    ∧ Demo.value m ≤ Demo.value m' ≤ Demo.total m
    ∧ (st = Returned → Demo.value m' = Demo.total m ∧ Demo.closed m' = true)
    ∧ (st = Blocked → Demo.closed m' = Demo.closed m).
Proof.
  intros Hnanos. revert m.
  induction Hnanos as [|nano nanos Hnano _ IH]; intros m Hv Ht.
  - exists Blocked, m. simpl. repeat split; (lia || done).
  - destruct (decide (Demo.total m ≤ Demo.value m)) as [Hdone|Hrun].
    + simpl. unfold Demo.tick.
      destruct (Z.leb_spec (Demo.total m) (Demo.value m)); [|lia].
      eexists _, _. split; [reflexivity|]. simpl.
      repeat split; (lia || done).
    + destruct (demo_tick_grows nano m) as (v & Htick & Hvb); [lia..|].
      simpl. rewrite Htick.
      destruct (IH (Demo.mkMock (Demo.total m) v (Demo.title m)
                      (Demo.closed m)))
        as (st & m' & Hrun' & Htot & Htit & Hval & Hret & Hblk);
        [simpl; lia..|].
      simpl in *. exists st, m'. rewrite Hrun'.
      repeat split; try (lia || done); by apply Hret.
Qed.

(** X18. The demo source finishes: under the same conditions, once it has
    had one tick more than the tenth of what is left to do, the worker has
    returned, the value is the total and the channel is closed. *)
Theorem demo_worker_completes nanos (m : Demo.MockProgressable) :
  Forall (λ nano, 0 ≤ nano) nanos →
  - 2 ^ 63 ≤ Demo.value m ≤ Demo.total m →
  Demo.total m ≤ 2 ^ 63 - 30 →
  Demo.total m - Demo.value m ≤ 10 * (Z.of_nat (length nanos) - 1) →
  Demo.worker nanos m
  = (Returned, Demo.mkMock (Demo.total m) (Demo.total m) (Demo.title m) true).
Proof.
  intros Hnanos. revert m.
  induction Hnanos as [|nano nanos Hnano _ IH]; intros m Hv Ht Hlen.
  - simpl in Hlen. lia.
  - destruct (decide (Demo.total m ≤ Demo.value m)) as [Hdone|Hrun].
    + simpl. unfold Demo.tick.
      destruct (Z.leb_spec (Demo.total m) (Demo.value m)); [|lia].
      by replace (Demo.value m) with (Demo.total m) by lia.
    + destruct (demo_tick_grows nano m) as (v & Htick & Hvb); [lia..|].
      simpl. rewrite Htick.
      rewrite IH; simpl; [done|lia|lia|].
      rewrite length_cons in Hlen. lia.
Qed.

Lemma demo_value_within_total_witness :
  ∃ st m',
    Demo.worker [1700000000000000007; 1700000000100000013]
      (Demo.NewMockProgressable 100) = (st, m')
    ∧ 0 ≤ Demo.value m' ≤ 100.
Proof.
  destruct (demo_value_within_total
              [1700000000000000007; 1700000000100000013]
              (Demo.NewMockProgressable 100))
    as (st & m' & Hrun & _ & _ & Hval & _).
  - repeat constructor; lia.
  - simpl. lia.
  - simpl. lia.
  - exists st, m'. split; [assumption|exact Hval].
Defined.

Lemma demo_worker_completes_witness :
  Demo.worker [3; 14; 15; 9; 26] (Demo.NewMockProgressable 40)
  = (Returned, Demo.mkMock 40 40 EmptyString true).
Proof.
  apply (demo_worker_completes [3; 14; 15; 9; 26]
           (Demo.NewMockProgressable 40)).
  - repeat constructor; lia.
  - simpl. lia.
  - simpl. lia.
  - simpl. lia.
Defined.

(** ** Several registrations at work *)

Lemma live_app gs1 gs2 ss1 ss2 :
  length gs1 = length ss1 →
  live (gs1 ++ gs2) (ss1 ++ ss2) = live gs1 ss1 ++ live gs2 ss2.
Proof.
  revert ss1. induction gs1 as [|g gs1 IH]; intros [|st ss1] Hlen;
    simpl in *; try done.
  destruct st; [|by apply IH; lia].
  rewrite IH by lia. done.
Qed.

Lemma live_subseteq gs ss : live gs ss ⊆ gs.
Proof.
  revert ss. induction gs as [|g gs IH]; intros [|st ss]; simpl;
    try done; try apply list_subseteq_nil.
  destruct st.
  - intros x [->|Hx]%elem_of_cons; [by left|]. right. by apply (IH ss).
  - intros x Hx. right. by apply (IH ss).
Qed.

Lemma filter_ne_absent (x : ptr) (l : list ptr) :
  x ∉ l → filter (λ q, q ≠ x) l = l.
Proof.
  induction l as [|a l IH]; intros Hx; [done|].
  rewrite filter_cons_True by (intros ->; apply Hx; by left).
  rewrite IH; [done|]. intros Hin. apply Hx. by right.
Qed.

(** One wake-up of a worker: it allocates nothing, starts nothing, and acts
    on what its callback captured only by returning. *)
Lemma run_one_wakeup {E} (g : goroutine E) wk (w : World E) :
  ∃ st w',
    run g [wk] w = (st, w')
    ∧ next w' = next w
    ∧ goroutines w' = goroutines w
    ∧ env w' = (if st is Returned then g_removeFunc g (g_bar g) (env w)
                else env w).
Proof.
  unfold run.
  destruct (progressWorker_any (g_ctx g) (g_bar g) (g_removeFunc g) [wk] w)
    as (st & w' & t & Hrun & _ & _ & _ & Henv & _).
  destruct (progressWorker_shape (g_ctx g) (g_bar g) (g_removeFunc g) [wk] w)
    as (st' & f & e & t' & Hshape).
  rewrite Hrun in Hshape. injection Hshape as -> ->.
  eexists st', _. rewrite Hrun. split; [reflexivity|]. by repeat split.
Qed.

Lemma sys_step_inv w0 s ev :
  Forall (λ x, (x < next w0)%nat) (bars (FPool (env w0))) →
  0 ≤ counter (FWg (env w0)) →
  sys_inv w0 s → sys_inv w0 (sys_step s ev).
Proof.
  intros Hold Hc0 (Hlen & Hnext & Hgs & Hnd & Hbars & Hcount & Hpanic).
  destruct s as [w ss]. simpl in *.
  destruct ev as [ctx [p|]|i wk]; unfold sys_step; cbn [sys_world sys_status].
  - (* a registration *)
    rewrite RegisterContext_ok. unfold sys_inv. cbn -[fmap].
    rewrite !length_app, live_app by done. simpl.
    rewrite !fmap_app, length_app, Hbars, Hcount, Hpanic. simpl.
    split; [lia|]. split; [lia|]. split; [|split; [|split; [|split]]].
    + apply Forall_app. split.
      * eapply Forall_impl; [exact Hgs|]. simpl. intros g [? ?]. split; [done|lia].
      * repeat constructor. simpl. lia.
    + apply NoDup_app. split; [done|]. split.
      * intros x Hx [->|[]%elem_of_nil]%elem_of_cons.
        apply list_elem_of_fmap in Hx as (g & Hg & Hin).
        rewrite Forall_forall in Hgs. destruct (Hgs g Hin) as [_ ?]. lia.
      * apply NoDup_singleton.
    + by rewrite <- app_assoc.
    + lia.
    + destruct (Z.ltb_spec (counter (FWg (env w0))
                            + Z.of_nat (length (live (goroutines w) ss)) + 1)
                           0); [lia|done].
  - (* a registration without source *)
    cbn [RegisterContext]. rewrite app_nil_r. by unfold sys_inv.
  - (* a wake-up *)
    destruct (goroutines w !! i) as [g|] eqn:Hg; [|by unfold sys_inv].
    destruct (ss !! i) as [[|]|] eqn:Hst; try by unfold sys_inv.
    destruct (run_one_wakeup g wk w) as (st & w' & Hrun & Hn & Hgo & Henv).
    rewrite Hrun. unfold sys_inv. simpl. rewrite Hn, Hgo, length_insert.
    destruct st.
    + rewrite list_insert_id by done. rewrite Henv. by repeat split.
    + pose proof (take_drop_middle _ _ _ Hg) as Hsplit.
      pose proof (take_drop_middle _ _ _ Hst) as Hsplit'.
      assert (length (take i (goroutines w)) = length (take i ss)) as Hti.
      { rewrite !length_take. lia. }
      set (gs1 := take i (goroutines w)) in *.
      set (gs2 := drop (S i) (goroutines w)) in *.
      set (ss1 := take i ss) in *. set (ss2 := drop (S i) ss) in *.
      assert (<[i := Returned]> ss = ss1 ++ Returned :: ss2) as Hins.
      { rewrite <- Hsplit' at 1.
        replace i with (length ss1 + 0)%nat at 1
          by (unfold ss1; rewrite length_take;
              apply lookup_lt_Some in Hst; lia).
        by rewrite insert_app_r. }
      rewrite Hins.
      assert (live (goroutines w) ss
              = live gs1 ss1 ++ g :: live gs2 ss2) as Hlive.
      { rewrite <- Hsplit, <- Hsplit' at 1. by rewrite live_app. }
      assert (live (goroutines w) (ss1 ++ Returned :: ss2)
              = live gs1 ss1 ++ live gs2 ss2) as Hlive'.
      { rewrite <- Hsplit at 1. by rewrite live_app. }
      rewrite Hlive', Henv. rewrite Hlive in Hbars, Hcount.
      rewrite length_app in Hcount. simpl in Hcount.
      rewrite Forall_forall in Hgs.
      destruct (Hgs g) as [Hrf Hbar];
        [apply list_elem_of_lookup; by exists i|].
      rewrite Hrf. simpl. rewrite Hbars, Hcount, Hpanic.
      rewrite Forall_forall in Hold.
      pose proof Hnd as Hnd0.
      rewrite <- Hsplit in Hnd. rewrite fmap_app, fmap_cons in Hnd.
      apply NoDup_app in Hnd as (Hnd1 & Hnd12 & Hnd2).
      apply NoDup_cons in Hnd2 as [Hnd2 _].
      split; [lia|]. split; [done|]. split; [by apply Forall_forall|].
      split; [exact Hnd0|].
      split; [|split].
      * rewrite fmap_app, fmap_cons, !filter_app.
        rewrite filter_cons_False by (intros H; by apply H).
        rewrite fmap_app. f_equal; [|f_equal].
        -- apply filter_ne_absent. intros Hin. specialize (Hold _ Hin). lia.
        -- apply filter_ne_absent. intros Hin.
           apply (Hnd12 (g_bar g)); [|by left].
           apply list_elem_of_fmap in Hin as (g' & -> & Hin).
           apply list_elem_of_fmap. exists g'. split; [done|].
           by apply (live_subseteq gs1 ss1).
        -- apply filter_ne_absent. intros Hin. apply Hnd2.
           apply list_elem_of_fmap in Hin as (g' & -> & Hin).
           apply list_elem_of_fmap. exists g'. split; [done|].
           by apply (live_subseteq gs2 ss2).
      * rewrite length_app. lia.
      * destruct (Z.ltb_spec (counter (FWg (env w0))
                              + Z.of_nat (length (live gs1 ss1)
                                          + S (length (live gs2 ss2)))
                              + -1) 0); [lia|done].
Qed.

Lemma sys_run_inv w0 s evs :
  Forall (λ x, (x < next w0)%nat) (bars (FPool (env w0))) →
  0 ≤ counter (FWg (env w0)) →
  sys_inv w0 s → sys_inv w0 (sys_run s evs).
Proof.
  intros Hold Hc0. revert s.
  induction evs as [|ev evs IH]; intros s Hs; [done|].
  simpl. apply IH. by apply sys_step_inv.
Qed.

(** X19. Whatever the order in which registrations and the wake-ups of the
    workers come, from a factory with no worker yet: the WaitGroup counter
    exceeds its starting value by the number of workers that have not
    returned, the pool holds its earlier bars followed by the bars of those
    workers in registration order, and the counter never goes negative.  So
    the counter is back at its starting value exactly when every worker has
    returned.  (A step is one whole call of RegisterContext or one wake-up
    of one worker.) *)
Theorem factory_accounts_for_live_workers w0 evs :
  goroutines w0 = [] →
  Forall (λ x, (x < next w0)%nat) (bars (FPool (env w0))) →
  panicked (FWg (env w0)) = false →
  0 ≤ counter (FWg (env w0)) →
  let s := sys_run (mkSystem w0 []) evs in
  let alive := live (goroutines (sys_world s)) (sys_status s) in
  counter (FWg (env (sys_world s)))
    = counter (FWg (env w0)) + Z.of_nat (length alive)
  ∧ bars (FPool (env (sys_world s)))
    = bars (FPool (env w0)) ++ (g_bar <$> alive)
  ∧ panicked (FWg (env (sys_world s))) = false
  ∧ (counter (FWg (env (sys_world s))) = counter (FWg (env w0))
     ↔ alive = []).
Proof.
  intros Hgo Hold Hpanic Hc0 s alive.
  assert (sys_inv w0 (mkSystem w0 [])) as Hinit.
  { unfold sys_inv. simpl. rewrite Hgo. simpl. rewrite app_nil_r.
    repeat split; try done; try lia; constructor. }
  destruct (sys_run_inv w0 _ evs Hold Hc0 Hinit)
    as (_ & _ & _ & _ & Hbars & Hcount & Hp).
  fold s in Hbars, Hcount, Hp. fold alive in Hbars, Hcount.
  split; [done|]. split; [done|]. split; [done|].
  rewrite Hcount. split.
  - intros Heq. destruct alive; [done|]. simpl in Heq. lia.
  - intros ->. simpl. lia.
Qed.

(** The end-to-end scenario of the specification: totals 100, 200 and 150;
    once the first and the third have completed (the first seen twice), the
    pool holds the second bar alone and one registration is outstanding. *)
Lemma factory_accounts_for_live_workers_witness :
  let s := sys_run (mkSystem factory0 []) threeSources in
  bars (FPool (env (sys_world s))) = [1%nat]
  ∧ counter (FWg (env (sys_world s))) = 1.
Proof.
  destruct (factory_accounts_for_live_workers factory0 threeSources)
    as (Hcount & Hbars & _).
  - reflexivity.
  - constructor.
  - reflexivity.
  - simpl. lia.
  - intros s. subst s. rewrite Hbars, Hcount. split; reflexivity.
Defined.

(** X20. The goroutine started by RegisterContext may run before the call
    reaches Pool.Add.  If the worker returns in between, its callback finds
    no bar to remove, and the bar is added afterwards: the registration ends
    with the counter back at its starting value and the bar of a worker that
    is gone left in the pool. *)
Theorem early_return_leaves_bar_in_pool ctx p sched
    (w : World PoolProgressFactory) :
  panicked (FWg (env w)) = false →
  0 ≤ counter (FWg (env w)) →
  Exists (λ wk, terminal (ctx_or_background ctx) wk = true) sched →
  ∃ bar w1 g w2,
    RegisterContext_go ctx p w = (inr bar, w1)
    ∧ RegisterContext ctx (Some p) w = (None, RegisterContext_add bar w1)
    ∧ goroutines w1 = goroutines w ++ [g]
    ∧ g_bar g = bar
    ∧ run g sched w1 = (Returned, w2)
    ∧ (bar ∈ bars (FPool (env (RegisterContext_add bar w2))))
    ∧ counter (FWg (env (RegisterContext_add bar w2)))
      = counter (FWg (env w))
    ∧ panicked (FWg (env (RegisterContext_add bar w2))) = false.
Proof.
  intros Hpanic Hc Hex. unfold RegisterContext_go, RegisterContext.
  rewrite registration_world. simpl.
  set (g := mkGoroutine (ctx_or_background ctx) (next w) factoryRemoveFunc).
  match goal with |- context [(inr (next w), ?w0)] => set (w1 := w0) end.
  destruct (progressWorker_any (g_ctx g) (g_bar g) (g_removeFunc g) sched w1)
    as (st & w2 & t & Hrun & _ & _ & _ & Henv & Hret & _).
  assert (st = Returned) as -> by (apply Hret; destruct ctx; exact Hex).
  exists (next w), w1, g, w2.
  split; [by destruct ctx|]. split; [by destruct ctx|].
  split; [by destruct ctx|]. split; [done|]. split; [exact Hrun|].
  unfold RegisterContext_add. simpl. rewrite Henv. simpl.
  split; [apply elem_of_app; right; by left|]. rewrite Hpanic. simpl.
  split; [lia|].
  destruct (Z.ltb_spec (counter (FWg (env w)) + 1) 0); [lia|].
  destruct (Z.ltb_spec (counter (FWg (env w)) + 1 + -1) 0); [lia|done].
Qed.

Lemma early_return_leaves_bar_in_pool_witness :
  ∃ bar w1 g w2,
    RegisterContext_go None (mock 100 100) factory0 = (inr bar, w1)
    ∧ goroutines w1 = [g]
    ∧ run g [completion (mock 100 100)] w1 = (Returned, w2)
    ∧ bars (FPool (env (RegisterContext_add bar w2))) = [bar]
    ∧ counter (FWg (env (RegisterContext_add bar w2))) = 0.
Proof.
  destruct (early_return_leaves_bar_in_pool None (mock 100 100)
              [completion (mock 100 100)] factory0)
    as (bar & w1 & g & w2 & Hgo & _ & Hgs & _ & Hrun & _ & Hcount & _).
  - reflexivity.
  - simpl. lia.
  - left. reflexivity.
  - exists bar, w1, g, w2. split; [assumption|]. split; [assumption|].
    split; [assumption|]. split; [|assumption].
    vm_compute in Hgo. injection Hgo as <- <-.
    vm_compute in Hgs. injection Hgs as <-.
    vm_compute in Hrun. injection Hrun as <-. reflexivity.
Defined.

(** ** The registration without context *)

Section NoContextFacts.

Context {E : Type}.
Implicit Types (w : World E) (rf : option (RemoveFunc E)).

(** Before completion the earlier worker does what the present one does
    under a background context. *)
Lemma nocontext_prefix bar rf pre w :
  Forall (λ wk, terminal Background wk = false) pre →
  NoContext.progressWorker bar rf pre w
  = (NoContext.Parked,
     mkWorld (alter (λ b, foldl ticked b pre) bar (heap w)) (next w) (env w)
             (goroutines w) (calls w ++ flat_map (tick_calls bar) pre)).
Proof.
  intros Hpre. revert w.
  induction Hpre as [|wk pre Hwk _ IH]; intros w.
  - simpl. rewrite app_nil_r.
    rewrite (alter_id (λ b, b)) by reflexivity. by destruct w.
  - destruct wk as [[cause| |ok] pr]; simpl in *.
    + rewrite IH. reflexivity.
    + rewrite IH. unfold sync, SetTotal, SetCurrent, andThen, log, update.
      simpl. rewrite <- !app_assoc, !alter_alter_eq. reflexivity.
    + destruct ok; [|discriminate]. simpl. rewrite IH. reflexivity.
Qed.

Lemma nocontext_completion bar rf pre pr post w :
  Forall (λ wk, terminal Background wk = false) pre →
  NoContext.progressWorker bar rf (pre ++ completion pr :: post) w
  = NoContext.deferred bar rf
      (sync pr bar (NoContext.progressWorker bar rf pre w).2).
Proof.
  intros Hpre. revert w.
  induction Hpre as [|wk pre Hwk _ IH]; intros w; [reflexivity|].
  destruct wk as [[cause| |ok] p]; simpl in *.
  - apply IH.
  - apply IH.
  - destruct ok; [|discriminate]. apply IH.
Qed.

Lemma nocontext_registration p rf w :
  NoContext.RegisterProgressable (Some p) rf w
  = (inr (next w), Some (next w, rf),
     mkWorld (<[next w := titled p (Bar.new64 (Total p))]> (heap w))
             (S (next w)) (env w) (goroutines w)
             (calls w ++ CallNew64 (next w) (Total p)
                      :: title_calls (next w) p)).
Proof.
  unfold NoContext.RegisterProgressable, New64, hasTitle, titled, title_calls.
  simpl. destruct (Title p) as [title|]; simpl.
  - destruct (decide (title = EmptyString)); simpl.
    + unfold andThen, log. simpl. by rewrite <- !app_assoc.
    + unfold BarSet, SetTemplateString, andThen, log, update. simpl.
      by rewrite <- !app_assoc, alter_alter_eq, alter_insert_eq.
  - unfold andThen, log. simpl. by rewrite <- !app_assoc.
Qed.

Lemma titled_unfinished p t : bar_finished (titled p (Bar.new64 t)) = false.
Proof.
  unfold titled. destruct (Title p) as [title|]; [|done].
  by destruct (decide (title = EmptyString)).
Qed.

Lemma tick_calls_no_removeFunc bar pre :
  count is_removeFunc (flat_map (tick_calls bar) pre) = 0%nat.
Proof. induction pre as [|[[c| |ok] p] pre IH]; simpl; done. Qed.

(** X22. The earlier RegisterProgressable takes a nil callback without
    complaint; the worker then runs as usual until completion, makes the
    final synchronisation, and panics on calling the callback: no callback
    has run and what callbacks captured is untouched. *)
Theorem nocontext_nil_callback_panics p pre pr post w :
  Forall (λ wk, terminal Background wk = false) pre →
  ∃ bar w1 w2 b,
    NoContext.RegisterProgressable (Some p) None w
      = (inr bar, Some (bar, None), w1)
    ∧ NoContext.progressWorker bar None (pre ++ completion pr :: post) w1
      = (NoContext.Panicked, w2)
    ∧ heap w2 !! bar = Some b
    ∧ bar_total b = Total pr
    ∧ bar_current b = Value pr
    ∧ count is_removeFunc (drop (length (calls w1)) (calls w2)) = 0%nat
    ∧ env w2 = env w.
Proof.
  intros Hpre. rewrite nocontext_registration. eexists _, _, _, _.
  split; [reflexivity|]. rewrite nocontext_completion by done.
  rewrite nocontext_prefix by done. simpl.
  split; [reflexivity|]. simpl.
  rewrite !alter_alter_eq, lookup_alter_eq, lookup_insert_eq. simpl.
  split; [reflexivity|]. split; [done|]. split; [done|]. split; [|done].
  set (c1 := calls w ++ CallNew64 (next w) (Total p)
                     :: title_calls (next w) p).
  rewrite <- !app_assoc, drop_app_length. unfold count.
  rewrite filter_app, length_app.
  pose proof (tick_calls_no_removeFunc (next w) pre) as Hc.
  unfold count in Hc. by rewrite Hc.
Qed.

End NoContextFacts.

(** X21. Registered through the earlier factory, a source that completes
    has its last values in the bar and its registration counted off, by a
    callback that ran once; but the bar is not marked finished and stays in
    the pool, so the Windows print, and the Unix print whenever it draws
    that bar, keep answering that the pool is not finished. *)
Theorem nocontext_completed_bar_stays p pre pr post
    (w : World PoolProgressFactory) :
  Forall (λ wk, terminal Background wk = false) pre →
  ∃ bar rf w1 w2 b,
    NoContext.Register (Some p) w = (None, Some (bar, Some rf), w1)
    ∧ NoContext.progressWorker bar (Some rf)
        (pre ++ completion pr :: post) w1 = (NoContext.Done, w2)
    ∧ heap w2 !! bar = Some b
    ∧ bar_total b = Total pr
    ∧ bar_current b = Value pr
    ∧ bar_finished b = false
    ∧ count is_removeFunc (drop (length (calls w1)) (calls w2)) = 1%nat
    ∧ counter (FWg (env w2)) = counter (FWg (env w))
    ∧ (bar ∈ bars (FPool (env w2)))
    ∧ (∀ BarString CellCount dw t first stderr cursor,
         (print_win BarString CellCount dw t first
            (mkScreen (heap w2) (FPool (env w2)) stderr cursor)).1 = false)
    ∧ (∀ BarString CellCount dw t first stderr cursor,
         bar ∈ visible (size_rows t) (bars (FPool (env w2))) →
         (print BarString CellCount dw t first
            (mkScreen (heap w2) (FPool (env w2)) stderr cursor)).1 = false).
Proof.
  intros Hpre. unfold NoContext.Register.
  rewrite nocontext_registration. simpl.
  eexists _, _, _, _, _. split; [reflexivity|].
  rewrite nocontext_completion by done.
  rewrite nocontext_prefix by done. simpl.
  split; [reflexivity|]. simpl.
  rewrite !alter_alter_eq, lookup_alter_eq, lookup_insert_eq. simpl.
  split; [reflexivity|]. split; [done|]. split; [done|].
  split; [simpl; by rewrite ticked_finished', titled_unfinished|].
  assert (∀ (h : gmap ptr ProgressBar) (bs : list ptr) x,
            x ∈ bs → IsFinished h x = false →
            forallb (IsFinished h) bs = false) as Hnot.
  { intros h bs x Hx Hf. destruct (forallb (IsFinished h) bs) eqn:Hall; [|done].
    rewrite forallb_elem_of in Hall. specialize (Hall x Hx). congruence. }
  assert (IsFinished
            (alter (λ b, Bar.set_current (Value pr)
                           (Bar.set_total (Total pr)
                              (foldl ticked b pre)))
               (next w)
               (<[next w := titled p (Bar.new64 (Total p))]> (heap w)))
            (next w) = false) as Hbar.
  { unfold IsFinished. rewrite lookup_total_alter_eq, lookup_insert_eq.
    simpl. by rewrite ticked_finished', titled_unfinished. }
  split; [|split; [|split; [|split]]].
  - set (c1 := calls w ++ CallNew64 (next w) (Total p)
                       :: title_calls (next w) p).
    rewrite <- !app_assoc, drop_app_length. unfold count.
    rewrite filter_app, length_app.
    pose proof (tick_calls_no_removeFunc (next w) pre) as Hc.
    unfold count in Hc. by rewrite Hc.
  - lia.
  - apply elem_of_app. right. by left.
  - intros. rewrite print_win_result_all. simpl.
    apply (Hnot _ _ (next w)); [|exact Hbar].
    apply elem_of_app. right. by left.
  - intros BarString CellCount dw t first stderr cursor Hvis.
    rewrite print_result_visible. simpl.
    by apply (Hnot _ _ (next w)).
Qed.

Lemma nocontext_nil_callback_panics_witness :
  ∃ bar w1 w2,
    NoContext.RegisterProgressable (Some (mock 100 0)) None (emptyWorld tt)
      = (inr bar, Some (bar, None), w1)
    ∧ NoContext.progressWorker bar None
        ([tick (mock 100 50)] ++ completion (mock 100 100) :: []) w1
      = (NoContext.Panicked, w2).
Proof.
  destruct (nocontext_nil_callback_panics (mock 100 0) [tick (mock 100 50)]
              (mock 100 100) [] (emptyWorld tt))
    as (bar & w1 & w2 & b & Hreg & Hrun & _).
  - repeat constructor.
  - exists bar, w1, w2. split; assumption.
Defined.

Lemma nocontext_completed_bar_stays_witness :
  ∃ bar rf w1 w2 b,
    NoContext.Register (Some (mock 100 0)) factory0
      = (None, Some (bar, Some rf), w1)
    ∧ NoContext.progressWorker bar (Some rf)
        ([tick (mock 100 50)] ++ completion (mock 100 100) :: []) w1
      = (NoContext.Done, w2)
    ∧ heap w2 !! bar = Some b
    ∧ bar_finished b = false
    ∧ (bar ∈ bars (FPool (env w2))).
Proof.
  destruct (nocontext_completed_bar_stays (mock 100 0) [tick (mock 100 50)]
              (mock 100 100) [] factory0)
    as (bar & rf & w1 & w2 & b & Hreg & Hrun & Hb & _ & _ & Hfin & _ & _
        & Hin & _).
  - repeat constructor.
  - exists bar, rf, w1, w2, b. repeat split; assumption.
Defined.

(** ** The further statements on concrete inputs *)


Lemma hasTitle_touches_title_only_witness :
  ∃ b',
    heap (hasTitle (Some (mockWithTitle 100 "Upload:")) (Some 0%nat)
            registered150) !! 0%nat = Some b'
    ∧ bar_total b' = 150.
Proof.
  destruct (@hasTitle_touches_title_only unit) as (_ & _ & Hthird).
  destruct (Hthird (mockWithTitle 100 "Upload:") 0%nat registered150)
    as (_ & _ & _ & _ & Hbar).
  destruct (Hbar (Bar.new64 150)) as (b' & Hb' & Htot & _).
  - reflexivity.
  - exists b'. split; assumption.
Defined.

Lemma lastBarsCount_bounded_witness :
  lastBarsCount
    (s_pool (print counters cells 100 (terminal_of 2 20) true screen3).2) ≤ 2.
Proof.
  destruct (lastBarsCount_bounded counters cells 100 (terminal_of 2 20) true
              screen3) as [_ Hrows].
  apply Hrows. simpl. lia.
Defined.

Lemma print_write_outcomes_witness :
  let r := print counters cells 100 (terminal_of 5 12) true screenFailing in
  Output (s_pool r.2) = Some (mkWriter EmptyString (Some "disk full"))
  ∧ s_stderr r.2
    = mkWriter ("pool print error: disk full" +:+ LF) None.
Proof.
  destruct (print_write_outcomes counters cells 100 (terminal_of 5 12) true
              screenFailing) as (_ & _ & _ & _ & Hfail & _).
  destruct (Hfail (mkWriter EmptyString (Some "disk full")) "disk full")
    as [Hout Herr].
  - reflexivity.
  - reflexivity.
  - split; [exact Hout|]. rewrite Herr. reflexivity.
Defined.

Lemma pad_fills_never_truncates_witness :
  cells (pad cells 12 "100 / 100") = 12.
Proof.
  destruct (pad_fills_never_truncates cells 12 "100 / 100") as [_ Hw].
  - exact cells_spaces.
  - rewrite Hw. reflexivity.
Defined.

Lemma print_answers_for_drawn_bars_witness :
  (print counters cells 100 (terminal_of 1 12) true screen2).1 = true.
Proof.
  destruct (print_answers_for_drawn_bars counters cells 100
              (terminal_of 1 12) true screen2) as [Hiff _].
  apply Hiff. intros x Hx.
  apply list_elem_of_singleton in Hx as ->. reflexivity.
Defined.

Lemma print_win_checks_every_bar_witness :
  (print_win counters cells 100 (terminal_of 1 12) true screen2).1 ≠ true.
Proof.
  destruct (print_win_checks_every_bar counters cells 100 (terminal_of 1 12)
              true screen2) as [Hiff _].
  destruct Hiff as [Hto _]. intros Htrue.
  assert (bar_finished (s_heap screen2 !!! 0%nat) = true) as Hfin
    by (apply (Hto Htrue); by left).
  discriminate Hfin.
Defined.

Lemma reposition_moves_up_clamped_witness :
  s_cursor (print_win counters cells 100 (terminal_of 5 12) false
              screenSecond).2
  = mkCoord 0 3.
Proof.
  apply (reposition_moves_up_clamped counters cells 100 (terminal_of 5 12)
           screenSecond).
  - reflexivity.
  - reflexivity.
  - simpl. lia.
  - simpl. lia.
Defined.

Lemma print_win_survives_cursor_errors_witness :
  s_cursor
    (print_win counters cells 100
       (mkTermutil 5 12 None 12 None (Some "no console") None) false
       screenSecond).2
  = mkCoord 7 5.
Proof.
  destruct (print_win_survives_cursor_errors counters cells 100
              (terminal_of 5 12) false screenSecond (Some "no console") None)
    as [_ Hcur].
  apply Hcur. left. by eexists.
Defined.

Lemma prints_coincide_on_first_frame_witness :
  print counters cells 100 (terminal_of 5 12) true screen2
  = print_win counters cells 100 (terminal_of 5 12) true screen2.
Proof.
  apply (prints_coincide_on_first_frame counters cells 100 (terminal_of 5 12)
           screen2).
  - reflexivity.
  - reflexivity.
  - left. simpl. lia.
  - intros x Hx. apply elem_of_cons in Hx as [->|Hx].
    + eexists. split; reflexivity.
    + apply list_elem_of_singleton in Hx as ->.
      eexists. split; reflexivity.
Defined.

(** ** Registration without cancellation, and the empty pool *)

(** X23. A registration made with RegisterProgressable, or with a nil
    context, runs under the background context: its worker returns exactly
    when the schedule holds a completion (a receive from the closed
    channel); on any schedule without one, cancellations included, it stays
    parked and never calls the removal callback. *)
Theorem background_worker_ends_only_on_completion :
  ∀ E ctx p (rf : RemoveFunc E) (w : World E) sched,
    ctx = None ∨ ctx = Some Background →
    ∃ bar w' g st w'',
      RegisterProgressableContext ctx (Some p) (Some rf) w = (inr bar, w')
      ∧ RegisterProgressable (Some p) (Some rf) w = (inr bar, w')
      ∧ goroutines w' = goroutines w ++ [g]
      ∧ g_ctx g = Background
      ∧ run g sched w' = (st, w'')
      ∧ (st = Returned
         ↔ Exists (λ wk, fired wk = FcRecv false) sched)
      ∧ (st = Blocked →
         count is_removeFunc (drop (length (calls w')) (calls w'')) = 0%nat
         ∧ env w'' = env w).
Proof.
  intros E ctx p rf w sched Hctx.
  unfold RegisterProgressable. rewrite !registration_world.
  assert (ctx_or_background ctx = Background) as ->
    by (destruct Hctx as [-> | ->]; done).
  simpl.
  set (g := mkGoroutine Background (next w) rf).
  match goal with |- context [(inr (next w), ?w0)] => set (w1 := w0) end.
  destruct (progressWorker_any (g_ctx g) (g_bar g) (g_removeFunc g) sched w1)
    as (st & w2 & t & Hrun & Hcalls & Hcount & _ & Henv & Hret & _).
  exists (next w), w1, g, st, w2.
  split; [done|]. split; [done|]. split; [done|]. split; [done|].
  split; [exact Hrun|]. split.
  - rewrite Hret. simpl. rewrite !Exists_exists.
    split; intros (wk & Hin & Hwk); exists wk; split; try done.
    + destruct wk as [[c| |[|]] pr]; simpl in *; done.
    + unfold terminal. by rewrite Hwk.
  - intros ->. rewrite Hcalls, drop_app_length. by split.
Qed.

Lemma background_worker_ends_only_on_completion_witness :
  ∃ bar w' g w'',
    RegisterProgressable (Some (mock 150 0)) (Some noRemove) (emptyWorld tt)
      = (inr bar, w')
    ∧ goroutines w' = [g]
    ∧ run g schedCancel w' = (Returned, w'').
Proof.
  destruct (background_worker_ends_only_on_completion unit
              (Some Background) (mock 150 0) noRemove (emptyWorld tt)
              schedCancel)
    as (bar & w' & g & st & w'' & _ & Hreg & Hgo & _ & Hrun & Hret & _).
  - by right.
  - exists bar, w', g, w''. split; [assumption|]. split; [assumption|].
    rewrite Hrun. f_equal. apply Hret.
    do 5 right. left. reflexivity.
Defined.

Section EmptyPool.

Variable BarString : ProgressBar → string.
Variable CellCount : string → Z.
Variable defaultBarWidth : Z.

(** X24. On a pool without bars both prints answer true, the answer that
    ends the render loop: nothing is drawn, the count kept is 0, no bar is
    touched; the Unix print composes the cursor-up prefix alone, nothing at
    all on a first frame. *)
Theorem print_empty_pool_answers_finished t first s :
  bars (s_pool s) = [] →
  let r := print BarString CellCount defaultBarWidth t first s in
  let r' := print_win BarString CellCount defaultBarWidth t first s in
  r.1 = true ∧ r'.1 = true
  ∧ lastBarsCount (s_pool r.2) = 0 ∧ lastBarsCount (s_pool r'.2) = 0
  ∧ s_heap r.2 = s_heap s ∧ s_heap r'.2 = s_heap s
  ∧ (compose BarString CellCount defaultBarWidth t first s).1.1.2
    = cursor_up first (lastBarsCount (s_pool s)).
Proof.
  intros Hempty. simpl.
  rewrite print_win_result_all, print_result_visible.
  assert (visible (size_rows t) (bars (s_pool s)) = []) as Hvis.
  { rewrite Hempty. unfold visible.
    destruct (_ && _); [apply drop_nil|done]. }
  rewrite Hvis, Hempty. split; [done|]. split; [done|].
  rewrite print_eq, compose_eq. simpl. rewrite Hvis. simpl.
  split; [done|]. rewrite append_empty_r.
  unfold print_win, compose_win. rewrite Hempty.
  destruct (if negb first then _ else _) as [stderr cursor]. simpl.
  destruct (emit _ _ _). by repeat split.
Qed.

End EmptyPool.

Lemma print_empty_pool_answers_finished_witness :
  (print counters cells 100 (terminal_of 24 80) true
     (mkScreen ∅ (mkPool [] 0 None) (mkWriter EmptyString None)
        (mkCoord 0 0))).1 = true.
Proof.
  destruct (print_empty_pool_answers_finished counters cells 100
              (terminal_of 24 80) true
              (mkScreen ∅ (mkPool [] 0 None) (mkWriter EmptyString None)
                 (mkCoord 0 0)))
    as [Hunix _].
  - reflexivity.
  - exact Hunix.
Defined.

(** ** The first registration *)

Section LegacyFacts.

Context {E : Type}.
Implicit Types (w : World E) (rf : option (RemoveFunc E)).

Lemma legacy_prefix pb rf pre logged w :
  Forall (λ wk, terminal Background wk = false) pre →
  Legacy.loop pb rf pre logged w
  = (Legacy.Parked,
     logged ++ flat_map (λ wk, if fired wk is TickerC
                               then [(Total (pr_now wk), Value (pr_now wk))]
                               else []) pre,
     mkWorld (alter (λ b, foldl ticked b pre) pb (heap w)) (next w) (env w)
             (goroutines w) (calls w ++ flat_map (tick_calls pb) pre)).
Proof.
  intros Hpre. revert logged w.
  induction Hpre as [|wk pre Hwk _ IH]; intros logged w.
  - simpl. rewrite !app_nil_r.
    rewrite (alter_id (λ b, b)) by reflexivity. by destruct w.
  - destruct wk as [[cause| |ok] pr]; simpl in *.
    + rewrite IH. reflexivity.
    + rewrite IH. unfold sync, SetTotal, SetCurrent, andThen, log, update.
      simpl. rewrite <- !app_assoc, !alter_alter_eq. reflexivity.
    + destruct ok; [|discriminate]. simpl. rewrite IH. reflexivity.
Qed.

Lemma legacy_completion pb rf pre pr post logged w :
  Forall (λ wk, terminal Background wk = false) pre →
  Legacy.loop pb rf (pre ++ completion pr :: post) logged w
  = let '(o, l, w1) := Legacy.loop pb rf pre logged w in
    let '(o', w2) := Legacy.deferred pb rf w1 in (o', l, w2).
Proof.
  intros Hpre. revert logged w.
  induction Hpre as [|wk pre Hwk _ IH]; intros logged w.
  - simpl. by destruct (Legacy.deferred pb rf w).
  - destruct wk as [[cause| |ok] p]; simpl in *.
    + apply IH.
    + apply IH.
    + destruct ok; [|discriminate]. apply IH.
Qed.

(** X25. In the first revision a completion is not followed by a last
    synchronisation: the bar made by RegisterProgressable starts at total 0
    and current 0 whatever the source's total, and when the source
    completes it keeps the total and current value of the latest tick (0
    and 0 without one), not what the source reports at completion.  The
    callback has then run once, before Finish, the bar is finished, and the
    readings of each tick have been logged in order. *)
Theorem legacy_completion_does_not_flush p (rf : RemoveFunc E) pre pr post w :
  Forall (λ wk, terminal Background wk = false) pre →
  ∃ pb w1 logged w2 b,
    Legacy.RegisterProgressable (Some p) (Some rf) w
      = (pb, (Some p, pb, Some rf), w1)
    ∧ heap w1 !! pb = Some Legacy.zeroBar
    ∧ Legacy.progressWorker (Some p) pb (Some rf)
        (pre ++ completion pr :: post) w1 = (Legacy.Done, logged, w2)
    ∧ heap w2 !! pb = Some b
    ∧ bar_total b = bar_total (foldl ticked Legacy.zeroBar pre)
    ∧ bar_current b = bar_current (foldl ticked Legacy.zeroBar pre)
    ∧ bar_finished b = true
    ∧ calls w2 = calls w1 ++ flat_map (tick_calls pb) pre
                   ++ [CallRemoveFunc pb; CallFinish pb]
    ∧ env w2 = rf pb (env w)
    ∧ logged = flat_map (λ wk, if fired wk is TickerC
                               then [(Total (pr_now wk), Value (pr_now wk))]
                               else []) pre.
Proof.
  intros Hpre. unfold Legacy.RegisterProgressable, Legacy.progressWorker.
  eexists _, _, _, _, _. split; [reflexivity|]. simpl.
  split; [by rewrite lookup_insert_eq|].
  rewrite legacy_completion by done. rewrite legacy_prefix by done.
  unfold Legacy.deferred, call_removeFunc, Finish, andThen, log, update,
    on_env. simpl.
  split; [reflexivity|]. simpl.
  rewrite alter_alter_eq, lookup_alter_eq, lookup_insert_eq. simpl.
  split; [reflexivity|]. split; [done|]. split; [done|]. split; [done|].
  split; [by rewrite <- !app_assoc|]. by split.
Qed.

End LegacyFacts.

(** The source is at 100 of 100 when it completes, having been seen at 50
    by the one tick: the bar ends at 50. *)
Lemma legacy_completion_does_not_flush_witness :
  ∃ pb w1 logged w2 b,
    Legacy.RegisterProgressable (Some (mock 100 0)) (Some noRemove)
      (emptyWorld tt) = (pb, (Some (mock 100 0), pb, Some noRemove), w1)
    ∧ Legacy.progressWorker (Some (mock 100 0)) pb (Some noRemove)
        ([tick (mock 100 50)] ++ completion (mock 100 100) :: []) w1
      = (Legacy.Done, logged, w2)
    ∧ heap w2 !! pb = Some b
    ∧ bar_current b = 50.
Proof.
  destruct (legacy_completion_does_not_flush (mock 100 0) noRemove
              [tick (mock 100 50)] (mock 100 100) [] (emptyWorld tt))
    as (pb & w1 & logged & w2 & b & Hreg & _ & Hrun & Hb & _ & Hcur & _).
  - repeat constructor.
  - exists pb, w1, logged, w2, b. repeat split; assumption.
Defined.
